(** * GeneticArt: the evolutionary engine of [main.cpp]

    A shallow embedding of the genetic algorithm that approximates a bitmap
    with [N] translucent triangles: the chromosome representation, the two
    crossover operators, the two mutation operators, the fitness score and
    the generation step [gl_idle].

    Conventions of the embedding.
    - A C [double] is a value of [dbl]: an exact rational, an infinity or
      NaN.  Arithmetic on finite values is exact (rounding is not
      modelled); division by zero and the propagation of infinities and of
      NaN follow IEEE 754, the sign of a zero is not tracked.
    - [rand_r(&seed)] reads the next raw draw of a stream; the stream stands
      for whatever the C library's generator produces from the seed.
    - The fixed-size C arrays [point[N][V][2]] and [color[N][4]] are total
      functions of their indices; the code never indexes outside the bounds.
    - [population] is a list of [POP_SIZE] chromosomes.
    - OpenGL rasterisation, the input image and [std::sort] are parameters. *)

From Stdlib Require Import ZArith QArith Qround Lia Bool.
From stdpp Require Import list sorting.

(** ** Doubles *)

Module Dbl.

Inductive dbl : Type :=
| Num (q : Q)          (* a finite value *)
| Infty (neg : bool)   (* +inf when [neg = false], -inf otherwise *)
| NaN.

Definition is_zero (q : Q) : bool := Qeq_bool q 0.
Definition is_neg (q : Q) : bool := negb (Qle_bool 0 q).

Definition of_int (z : Z) : dbl := Num (inject_Z z).

Definition neg (x : dbl) : dbl :=
  match x with
  | Num q => Num (- q)
  | Infty s => Infty (negb s)
  | NaN => NaN
  end.

Definition add (x y : dbl) : dbl :=
  match x, y with
  | NaN, _ | _, NaN => NaN
  | Num a, Num b => Num (a + b)
  | Infty s, Num _ => Infty s
  | Num _, Infty s => Infty s
  | Infty s, Infty t => if Bool.eqb s t then Infty s else NaN
  end.

Definition sub (x y : dbl) : dbl := add x (neg y).

Definition mul (x y : dbl) : dbl :=
  match x, y with
  | NaN, _ | _, NaN => NaN
  | Num a, Num b => Num (a * b)
  | Infty s, Num b => if is_zero b then NaN else Infty (xorb s (is_neg b))
  | Num a, Infty s => if is_zero a then NaN else Infty (xorb s (is_neg a))
  | Infty s, Infty t => Infty (xorb s t)
  end.

(** [div] has the division-by-zero branch written out: a finite non-zero
    numerator over zero is an infinity, zero over zero is NaN. *)
Definition div (x y : dbl) : dbl :=
  match x, y with
  | NaN, _ | _, NaN => NaN
  | Num a, Num b =>
      if is_zero b
      then (if is_zero a then NaN else Infty (is_neg a))
      else Num (a / b)
  | Num _, Infty _ => Num 0
  | Infty s, Num b => Infty (xorb s (is_neg b))
  | Infty _, Infty _ => NaN
  end.

(** [x < y]; every comparison with NaN is false. *)
Definition ltb (x y : dbl) : bool :=
  match x, y with
  | NaN, _ | _, NaN => false
  | Num a, Num b => negb (Qle_bool b a)
  | Infty s, Num _ => s
  | Num _, Infty s => negb s
  | Infty s, Infty t => s && negb t
  end.

Definition gtb (x y : dbl) : bool := ltb y x.

(** [ceil] and [round] of <cmath>; [round] rounds halves away from zero. *)
Definition ceil (x : dbl) : dbl :=
  match x with
  | Num q => of_int (Qceiling q)
  | _ => x
  end.

Definition round (x : dbl) : dbl :=
  match x with
  | Num q => of_int (if is_neg q then Qceiling (q - (1 # 2)) else Qfloor (q + (1 # 2)))
  | _ => x
  end.

Definition INT_MIN : Z := (- 2 ^ 31)%Z.
Definition INT_MAX : Z := (2 ^ 31 - 1)%Z.

(** Conversion to [int] truncates toward zero.  Outside the range of [int]
    the C++ result is undefined; x86-64 yields [INT_MIN] there. *)
Definition to_int (x : dbl) : Z :=
  match x with
  | Num q =>
      let z := Z.quot (Qnum q) (Zpos (Qden q)) in
      if ((INT_MIN <=? z) && (z <=? INT_MAX))%Z then z else INT_MIN
  | _ => INT_MIN
  end.

(** The closed unit interval. *)
Definition in_unit (x : dbl) : Prop :=
  match x with
  | Num q => (0 <= q /\ q <= 1)%Q
  | _ => False
  end.

End Dbl.

Import Dbl.

(** ** Configuration constants of [main.cpp] *)

Definition POP_SIZE : nat := 30.
Definition N : nat := 150.
Definition V : nat := 3.
Definition SCALE : Z := 512.
Definition OPACITY : dbl := Num (15 # 100).

(** [RAND_MAX] of <cstdlib>.  The program is written for Linux and gcc
    (see the header of [main.cpp]), whose C library has [2^31 - 1]. *)
Definition RAND_MAX : Z := 2147483647.

(** ** The random number generator

    [seed] is read and advanced by [rand_r] only.  Its state is the stream of
    raw draws the generator is going to produce and the number consumed so
    far. *)

Record seed_t : Type := { draws : nat -> Z; pos : nat }.

Definition Rand (A : Type) : Type := seed_t -> A * seed_t.

Definition ret {A} (a : A) : Rand A := fun s => (a, s).

Definition bind {A B} (m : Rand A) (k : A -> Rand B) : Rand B :=
  fun s => k (fst (m s)) (snd (m s)).

Notation "'let*' x ':=' c 'in' k" := (bind c (fun x => k))
  (at level 10, x name, c at level 100, k at level 200, only parsing).

Definition rand_r : Rand Z :=
  fun s => (draws s (pos s), {| draws := draws s; pos := S (pos s) |}).

(** [#define RND (2.0 * (double)rand_r(&seed) / RAND_MAX - 1.0)] *)
Definition RND : Rand dbl :=
  let* r := rand_r in
  ret (sub (div (mul (Num 2) (of_int r)) (of_int RAND_MAX)) (Num 1)).

(** [#define U_RND ((double)rand_r(&seed) / RAND_MAX)] *)
Definition U_RND : Rand dbl :=
  let* r := rand_r in
  ret (div (of_int r) (of_int RAND_MAX)).

(** [for (int i = lo; i < lo + n; i++) x = body i x] *)
Fixpoint for_loop {St : Type} (n lo : nat) (body : nat -> St -> Rand St)
  (x : St) : Rand St :=
  match n with
  | O => ret x
  | S n' => let* x' := body lo x in for_loop n' (S lo) body x'
  end.

(** The same loop when the body does not draw. *)
Fixpoint for_pure {St : Type} (n lo : nat) (body : nat -> St -> St) (x : St)
  : St :=
  match n with
  | O => x
  | S n' => for_pure n' (S lo) body (body lo x)
  end.

(** ** Chromosomes *)

Record Chromosome : Type := {
  point : nat -> nat -> nat -> dbl;   (* double point[N][V][2] *)
  color : nat -> nat -> dbl;          (* double color[N][4], RGBA *)
  fit_val : Z;                        (* ll fit_val *)
  window : list Z                     (* contents of the read-back buffer *)
}.

(** [Chromosome()]: the arrays are zero-initialised by their [{}]
    initialisers; the fresh buffer is not read before [glReadPixels] fills
    it. *)
Definition Chromosome_new : Chromosome :=
  {| point := fun _ _ _ => Num 0; color := fun _ _ => Num 0;
     fit_val := 0%Z; window := [] |}.

#[export] Instance Chromosome_inhabited : Inhabited Chromosome :=
  populate Chromosome_new.

(** [c.point[i][j][k] = v] *)
Definition set_point (c : Chromosome) (i j k : nat) (v : dbl) : Chromosome :=
  {| point := fun i' j' k' =>
       if (i' =? i) && (j' =? j) && (k' =? k) then v else point c i' j' k';
     color := color c; fit_val := fit_val c; window := window c |}.

(** [c.color[i][ch] = v] *)
Definition set_color (c : Chromosome) (i ch : nat) (v : dbl) : Chromosome :=
  {| point := point c;
     color := fun i' ch' =>
       if (i' =? i) && (ch' =? ch) then v else color c i' ch';
     fit_val := fit_val c; window := window c |}.

(** Sorting key: [a.fit_val < b.fit_val]. *)
Definition key (a b : Chromosome) : bool := (fit_val a <? fit_val b)%Z.

(** *** Mutation *)

(** [if (U_RND > 0.5f) point[i][j][k] = U_RND;] *)
Definition reset_point (i j k : nat) (c : Chromosome) : Rand Chromosome :=
  let* u := U_RND in
  if gtb u (Num (1 # 2))
  then let* v := U_RND in ret (set_point c i j k v)
  else ret c.

(** [if (U_RND > 0.5f) { color[i][0] = U_RND; color[i][1] = U_RND;
    color[i][2] = U_RND; }] *)
Definition reset_color (i : nat) (c : Chromosome) : Rand Chromosome :=
  let* u := U_RND in
  if gtb u (Num (1 # 2))
  then
    let* v0 := U_RND in let c := set_color c i 0 v0 in
    let* v1 := U_RND in let c := set_color c i 1 v1 in
    let* v2 := U_RND in ret (set_color c i 2 v2)
  else ret c.

Definition reset_triangle (i : nat) (c : Chromosome) : Rand Chromosome :=
  let* c := for_loop V 0 (fun j c =>
              let* c := reset_point i j 0 c in
              reset_point i j 1 c) c in
  reset_color i c.

(** [mutate_change]: reset mutation. *)
Definition mutate_change (c : Chromosome) : Rand Chromosome :=
  for_loop N 0 reset_triangle c.

(** [x < .0f || x > 1.f] *)
Definition off_bounds (x : dbl) : bool := ltb x (Num 0) || gtb x (Num 1).

(** [if (point[j][k][i] < .0f || point[j][k][i] > 1.f) point[j][k][i] = U_RND;] *)
Definition renew_point (j k i : nat) (c : Chromosome) : Rand Chromosome :=
  if off_bounds (point c j k i)
  then let* v := U_RND in ret (set_point c j k i v)
  else ret c.

(** [if (color[j][ch] < .0f || color[j][ch] > 1.f) color[j][ch] = U_RND;] *)
Definition renew_color (j ch : nat) (c : Chromosome) : Rand Chromosome :=
  if off_bounds (color c j ch)
  then let* v := U_RND in ret (set_color c j ch v)
  else ret c.

(** The perturbation of vertex [k] of triangle [j] (first [if] of the inner
    loop body). *)
Definition perturb_point (disturb : dbl) (j k : nat) (c : Chromosome)
  : Rand Chromosome :=
  let* u := U_RND in
  if ltb u (Num (1 # 4))
  then
    let* r0 := RND in
    let c := set_point c j k 0 (add (point c j k 0) (div r0 disturb)) in
    let* r1 := RND in
    ret (set_point c j k 1 (add (point c j k 1) (div r1 disturb)))
  else ret c.

(** The perturbation of the colour of triangle [j]. *)
Definition perturb_color (disturb : dbl) (j : nat) (c : Chromosome)
  : Rand Chromosome :=
  let* u := U_RND in
  if ltb u (Num (1 # 2))
  then
    let* r0 := RND in
    let c := set_color c j 0 (add (color c j 0) (div (mul (Num 10) r0) disturb)) in
    let* r1 := RND in
    let c := set_color c j 1 (add (color c j 1) (div (mul (Num 10) r1) disturb)) in
    let* r2 := RND in
    ret (set_color c j 2 (add (color c j 2) (div (mul (Num 10) r2) disturb)))
  else ret c.

(** Body of the inner loop of [mutate_disturb]. *)
Definition disturb_vertex (disturb : dbl) (j k : nat) (c : Chromosome)
  : Rand Chromosome :=
  let* c := perturb_point disturb j k c in
  let* c := renew_point j k 0 c in
  renew_point j k 1 c.

(** Rest of the outer loop body of [mutate_disturb]. *)
Definition disturb_color (disturb : dbl) (j : nat) (c : Chromosome)
  : Rand Chromosome :=
  let* c := perturb_color disturb j c in
  let* c := renew_color j 0 c in
  let* c := renew_color j 1 c in
  renew_color j 2 c.

Definition disturb_triangle (disturb : dbl) (j : nat) (c : Chromosome)
  : Rand Chromosome :=
  let* c := for_loop V 0 (disturb_vertex disturb j) c in
  disturb_color disturb j c.

(** [mutate_disturb]: disturb mutation. *)
Definition mutate_disturb (disturb : dbl) (c : Chromosome) : Rand Chromosome :=
  for_loop N 0 (disturb_triangle disturb) c.

(** *** Crossover *)

(** Copy of vertex [j] of triangle [i] from [a] into [c]. *)
Definition copy_point (a c : Chromosome) (i j : nat) : Chromosome :=
  let c := set_point c i j 0 (point a i j 0) in
  set_point c i j 1 (point a i j 1).

(** Copy of the RGB colour of triangle [i] from [a] into [c]. *)
Definition copy_color (a c : Chromosome) (i : nat) : Chromosome :=
  let c := set_color c i 0 (color a i 0) in
  let c := set_color c i 1 (color a i 1) in
  set_color c i 2 (color a i 2).

(** [int p = ceil(U_RND * N);] *)
Definition cut_point : Rand Z :=
  let* u := U_RND in ret (to_int (ceil (mul u (of_int (Z.of_nat N))))).

(** The two copy loops of [one_point_co] for a cut index [p]. *)
Definition one_point_copy (p : Z) (a b c : Chromosome) : Chromosome :=
  let c :=
    for_pure N 0 (fun i c =>
      for_pure V 0 (fun j c =>
        if (Z.of_nat i <? p)%Z
        then copy_point a c i j
        else copy_point b c i j) c) c in
  for_pure N 0 (fun i c =>
    if (Z.of_nat i <? p)%Z
    then copy_color a c i
    else copy_color b c i) c.

(** [one_point_co(a, b, c)]; [a] and [b] are passed by value, [c] by
    reference. *)
Definition one_point_co (a b c : Chromosome) : Rand Chromosome :=
  let* p := cut_point in ret (one_point_copy p a b c).

(** [n_points_co(a, b, c)]: the coin is drawn inside the loop over the
    vertices. *)
Definition n_points_co (a b c : Chromosome) : Rand Chromosome :=
  for_loop N 0 (fun i c =>
    for_loop V 0 (fun j c =>
      let* u := U_RND in
      if ltb u (Num (1 # 2))
      then ret (copy_color a (copy_point a c i j) i)
      else ret (copy_color b (copy_point b c i j) i)) c) c.

(** ** Population *)

(** Body of the loop over the triangles in [gen_pop]. *)
Definition gen_triangle (j : nat) (c : Chromosome) : Rand Chromosome :=
  let* c := for_loop V 0 (fun k c =>
              let* x := U_RND in let c := set_point c j k 0 x in
              let* y := U_RND in ret (set_point c j k 1 y)) c in
  let* r := U_RND in let c := set_color c j 0 r in
  let* g := U_RND in let c := set_color c j 1 g in
  let* b := U_RND in let c := set_color c j 2 b in
  ret (set_color c j 3 OPACITY).

(** [gen_pop]: initial random population. *)
Definition gen_pop (pop : list Chromosome) : Rand (list Chromosome) :=
  for_loop POP_SIZE 0 (fun i pop =>
    let* c := for_loop N 0 gen_triangle (pop !!! i) in
    ret (<[i := c]> pop)) pop.

(** ** Fitness *)

(** Two's-complement wrap-around to [bits] bits. *)
Definition wrap (bits z : Z) : Z :=
  ((z + 2 ^ (bits - 1)) mod 2 ^ bits - 2 ^ (bits - 1))%Z.

Definition int_add (a b : Z) : Z := wrap 32 (a + b).
Definition int_sub (a b : Z) : Z := wrap 32 (a - b).
Definition int_mul (a b : Z) : Z := wrap 32 (a * b).
Definition ll_add (a b : Z) : Z := wrap 64 (a + b).

(** [(window[i] - input.pixel[i]) * (window[i] - input.pixel[i])]: the bytes
    are promoted to [int]. *)
Definition sq_diff (win pix : list Z) (i : nat) : Z :=
  int_mul (int_sub (win !!! i) (pix !!! i)) (int_sub (win !!! i) (pix !!! i)).

(** The summand of one loop iteration. *)
Definition pixel_error (win pix : list Z) (i : nat) : Z :=
  int_add (int_add (sq_diff win pix i) (sq_diff win pix (i + 1)))
          (sq_diff win pix (i + 2)).

(** [n] iterations of [for (...; i += 3) fit += ...] from index [i]. *)
Fixpoint error_loop (n i : nat) (win pix : list Z) (fit : Z) : Z :=
  match n with
  | O => fit
  | S n' => error_loop n' (i + 3) win pix (ll_add fit (pixel_error win pix i))
  end.

(** The loop [for (int i = 0; i < limit; i += 3)] runs once for every
    multiple of 3 below [limit]. *)
Definition error_sum (limit : Z) (win pix : list Z) : Z :=
  error_loop (Z.to_nat ((limit + 2) / 3)) 0 win pix 0.

(** The score as the specification words it: the sum over every byte of the
    two buffers of the squared difference. *)
Definition spec_score (rendered target : list Z) : Z :=
  foldr Z.add 0%Z (zip_with (fun r t => ((r - t) * (r - t))%Z) rendered target).

Definition set_fit (c : Chromosome) (f : Z) : Chromosome :=
  {| point := point c; color := color c; fit_val := f; window := window c |}.

Definition set_window (c : Chromosome) (w : list Z) : Chromosome :=
  {| point := point c; color := color c; fit_val := fit_val c; window := w |}.

(** ** The generation loop *)

(** [POP_SIZE - ceil(POP_SIZE * 0.75)], the first slot that is regenerated. *)
Definition first_regen : nat :=
  Z.to_nat (to_int (sub (of_int (Z.of_nat POP_SIZE))
                        (ceil (mul (of_int (Z.of_nat POP_SIZE)) (Num (3 # 4)))))).

(** [((int) round(U_RND * POP_SIZE)) % POP_SIZE] *)
Definition pick : Rand nat :=
  let* u := U_RND in
  ret (Z.to_nat (Z.rem (to_int (round (mul u (of_int (Z.of_nat POP_SIZE)))))
                       (Z.of_nat POP_SIZE))).

(** The argument [500 * RND] of the call of [mutate_disturb] in [gl_idle].
    The value here is the exact product.  The double of the program is a
    rounding of it: the quotient [2 r / RAND_MAX] is at least [1 / RAND_MAX]
    away from 1, far more than its rounding error, so the double has the
    sign of the exact value, is not zero and lies in [-500, 500]; its
    magnitude can be smaller than the exact one (for [r = 1073741823] the
    double is [-500 * 2^-31], the exact value [-500 / RAND_MAX]).  The
    theorem on the intensity states only what survives the rounding. *)
Definition intensity : Rand dbl :=
  let* r := RND in ret (mul (Num 500) r).

Section Engine.

(** [render c] is what [glReadPixels] stores after [glClear] and [c.draw()]:
    [input.width * input.height * 3] bytes. *)
Variable render : Chromosome -> list Z.

(** The target image [input]. *)
Variables input_width input_height : Z.
Variable input_pixel : list Z.

(** [std::sort(population, population + POP_SIZE, Chromosome::key)] *)
Variable std_sort : list Chromosome -> list Chromosome.

(** [fitness()]: returns the score and leaves the rendering in [window]. *)
Definition fitness (c : Chromosome) : Z * Chromosome :=
  let c := set_window c (render c) in
  (error_sum (int_mul (int_mul input_width input_height) 3) (window c) input_pixel,
   c).

(** [c.fit_val = c.fitness();] *)
Definition evaluate (c : Chromosome) : Chromosome :=
  set_fit (snd (fitness c)) (fst (fitness c)).

(** Body of the loop of [gl_idle] for slot [i].  The literal [0.95] is the
    double nearest to 95/100; no quotient of a draw by [RAND_MAX] lies
    between the two. *)
Definition regenerate (i : nat) (pop : list Chromosome)
  : Rand (list Chromosome) :=
  let* u := U_RND in
  let* pop :=
    (if ltb u (Num (95 # 100))
     then
       let* a := pick in
       let* b := pick in
       let* u := U_RND in
       let* c := (if ltb u (Num (1 # 2))
                  then one_point_co (pop !!! a) (pop !!! b) (pop !!! i)
                  else n_points_co (pop !!! a) (pop !!! b) (pop !!! i)) in
       ret (<[i := c]> pop)
     else
       let* u := U_RND in
       let* c := (if ltb u (Num (95 # 100))
                  then let* d := intensity in mutate_disturb d (pop !!! i)
                  else mutate_change (pop !!! i)) in
       ret (<[i := c]> pop)) in
  ret (<[i := evaluate (pop !!! i)]> pop).

(** [gl_idle]: one generation.  The counter [epochs] is written here and
    read nowhere. *)
Definition gl_idle (pop : list Chromosome) : Rand (list Chromosome) :=
  for_loop (POP_SIZE - first_regen) first_regen regenerate (std_sort pop).

(** The part of [main] that builds the first population. *)
Definition main_init : Rand (list Chromosome) :=
  let* pop := gen_pop (replicate POP_SIZE Chromosome_new) in
  ret (std_sort (evaluate <$> pop)).

(** [n] calls of [gl_idle] by the event loop. *)
Fixpoint generations (n : nat) (pop : list Chromosome)
  : Rand (list Chromosome) :=
  match n with
  | O => ret pop
  | S n' => let* pop := gl_idle pop in generations n' pop
  end.

Definition run (n : nat) : Rand (list Chromosome) :=
  let* pop := main_init in generations n pop.

End Engine.

(** Smallest cached fitness of a population. *)
Definition min_fit (pop : list Chromosome) : Z :=
  match pop with
  | [] => 0%Z
  | c :: l => foldr (fun c m => Z.min (fit_val c) m) (fit_val c) l
  end.

(** ** Vocabulary of the statements *)

(** Every raw draw of the stream is a value [rand_r] can return. *)
Definition ok (s : seed_t) : Prop :=
  forall n, (0 <= draws s n <= RAND_MAX)%Z.

(** [s'] continues the stream of [s]. *)
Definition extends (s s' : seed_t) : Prop :=
  draws s' = draws s /\ pos s <= pos s'.

(** [m], which always returns, takes a generator that satisfies [P] to a
    result and a generator that satisfy [Q]. *)
Definition hoare {A} (P : seed_t -> Prop) (m : Rand A)
  (Q : A -> seed_t -> Prop) : Prop :=
  forall s, P s -> Q (fst (m s)) (snd (m s)).

(** Every vertex coordinate and every colour channel of the [N] triangles
    lies in [0,1]. *)
Definition bounded (c : Chromosome) : Prop :=
  (forall i j k, i < N -> j < V -> k < 2 -> in_unit (point c i j k)) /\
  (forall i ch, i < N -> ch < 4 -> in_unit (color c i ch)).

(** Same vertices and RGB colour in triangle [i]. *)
Definition same_triangle (c a : Chromosome) (i : nat) : Prop :=
  (forall j k, j < V -> k < 2 -> point c i j k = point a i j k) /\
  (forall ch, ch < 3 -> color c i ch = color a i ch).

(** The values of an [unsigned char]. *)
Definition is_byte (b : Z) : Prop := (0 <= b <= 255)%Z.

(** What no operator writes: alpha, the cached fitness and the buffer. *)
Definition frame (c x : Chromosome) : Prop :=
  (forall t, color x t 3 = color c t 3) /\
  fit_val x = fit_val c /\ window x = window c.

(** The chromosome and the generator when [mutate_disturb] enters the outer
    iteration [j], the inner iteration [(j, k)], and the colour part of the
    outer iteration [j]. *)
Definition at_triangle (d : dbl) (c : Chromosome) (s : seed_t) (j : nat)
  : Chromosome * seed_t :=
  for_loop j 0 (disturb_triangle d) c s.

Definition at_vertex (d : dbl) (c : Chromosome) (s : seed_t) (j k : nat)
  : Chromosome * seed_t :=
  for_loop k 0 (disturb_vertex d j)
    (fst (at_triangle d c s j)) (snd (at_triangle d c s j)).

Definition at_color (d : dbl) (c : Chromosome) (s : seed_t) (j : nat)
  : Chromosome * seed_t :=
  at_vertex d c s j V.

(** A divisor that takes [div] to its division-by-zero branch. *)
Definition zero_divisor (d : dbl) : bool :=
  match d with
  | Num q => is_zero q
  | _ => false
  end.

(** Alpha of every triangle of every member is [OPACITY]. *)
Definition alpha_fixed (pop : list Chromosome) : Prop :=
  forall c, c ∈ pop -> forall j, j < N -> color c j 3 = OPACITY.

(** Sorted ascending by cached fitness. *)
Definition ascending (pop : list Chromosome) : Prop :=
  StronglySorted (fun a b => (fit_val a <= fit_val b)%Z) pop.

(** No two different members share a cached fitness. *)
Definition no_ties (pop : list Chromosome) : Prop :=
  forall x y, x ∈ pop -> y ∈ pop -> fit_val x = fit_val y -> x = y.

(** What the C++ standard promises of [std::sort] with a comparison: the
    result is a permutation of the range in which no element compares less
    than an earlier one.  The order of equivalent elements is not
    specified. *)
Definition sorts (f : list Chromosome -> list Chromosome) : Prop :=
  forall l, f l ≡ₚ l /\ StronglySorted (fun a b => key b a = false) (f l).

(** ** Concrete data for the examples *)

(** A generator that returns 0 for ever. *)
Definition zero_seed : seed_t := {| draws := fun _ => 0%Z; pos := 0 |}.

(** A generator that replays the list [l], then returns 0. *)
Definition script (l : list Z) : seed_t :=
  {| draws := fun n => l !!! n; pos := 0 |}.

(** The genome whose coordinates and RGB channels all are [v]. *)
Definition flat (v : dbl) : Chromosome :=
  {| point := fun _ _ _ => v;
     color := fun _ ch => if ch =? 3 then OPACITY else v;
     fit_val := 0%Z; window := [] |}.

(** A sort that meets the contract of [std::sort] and is not stable:
    insertion sort that puts an element before its equivalents. *)
Fixpoint insert_before (x : Chromosome) (l : list Chromosome)
  : list Chromosome :=
  match l with
  | [] => [x]
  | y :: l' => if key y x then y :: insert_before x l' else x :: y :: l'
  end.

Definition tie_sort (l : list Chromosome) : list Chromosome :=
  fold_left (fun acc x => insert_before x acc) l [].

(** Thirty genomes of equal cached fitness, the first one different from the
    others in one coordinate.  All their triangles are degenerate. *)
Definition tied_pop : list Chromosome :=
  set_point (flat (Num 0)) 0 0 0 (Num 1) :: replicate 29 (flat (Num 0)).

(** ** Drawing and display *)

(** The OpenGL calls the program issues, with their arguments. *)
Inductive gl_cmd : Type :=
| glViewport (x y w h : Z)
| glMatrixMode_PROJECTION
| glLoadIdentity
| gluOrtho2D (left right bottom top : dbl)
| glClear_COLOR
| glEnable_BLEND
| glBlendFunc_SRC_ALPHA_ONE_MINUS_SRC_ALPHA
| glBegin_TRIANGLES
| glColor4f (r g b a : dbl)
| glVertex2f (x y : dbl)
| glEnd
| glutSwapBuffers.

(** Body of the loop of [draw]: the colour and the three vertices of
    triangle [i]. *)
Definition draw_triangle (c : Chromosome) (i : nat) : list gl_cmd :=
  [ glColor4f (color c i 0) (color c i 1) (color c i 2) (color c i 3);
    glVertex2f (point c i 0 0) (point c i 0 1);
    glVertex2f (point c i 1 0) (point c i 1 1);
    glVertex2f (point c i 2 0) (point c i 2 1) ].

(** [draw()]: the calls between [glBegin] and [glEnd], in order. *)
Definition draw (c : Chromosome) : list gl_cmd :=
  [glBegin_TRIANGLES]
  ++ for_pure N 0 (fun i cmds => cmds ++ draw_triangle c i) []
  ++ [glEnd].

(** [gl_display]: the calls of one redisplay. *)
Definition gl_display (pop : list Chromosome) : list gl_cmd :=
  [ glViewport 0 0 SCALE SCALE; glMatrixMode_PROJECTION; glLoadIdentity;
    gluOrtho2D (Num 0) (Num 1) (Num 0) (Num 1); glClear_COLOR; glEnable_BLEND;
    glBlendFunc_SRC_ALPHA_ONE_MINUS_SRC_ALPHA ]
  ++ draw (pop !!! 0)
  ++ [glutSwapBuffers].

(** ** Further vocabulary *)

(** The same vertices and the same RGBA colour in all [N] triangles. *)
Definition same_genes (c c' : Chromosome) : Prop :=
  (forall i j k, i < N -> j < V -> k < 2 -> point c i j k = point c' i j k) /\
  (forall i ch, i < N -> ch < 4 -> color c i ch = color c' i ch).

(** The value [U_RND] returns for the draw at position [n] of the stream. *)
Definition uval (s : seed_t) (n : nat) : dbl :=
  Num (inject_Z (draws s n) / inject_Z RAND_MAX).

(** The parent a coin of [n_points_co] selects, for the draw at position
    [n]. *)
Definition donor (a b : Chromosome) (s : seed_t) (n : nat) : Chromosome :=
  if ltb (uval s n) (Num (1 # 2)) then a else b.

(** The cached fitness of [c] is the score of [c]. *)
Definition cached (render : Chromosome -> list Z) (w h : Z) (pix : list Z)
  (c : Chromosome) : Prop :=
  fit_val c = fst (fitness render w h pix c).

(** [s'] is the generator [s] after exactly [n] more draws. *)
Definition advanced (n : nat) (s s' : seed_t) : Prop :=
  draws s' = draws s /\ pos s' = pos s + n.

(** Every member of the population has its coordinates and channels in
    [0,1]. *)
Definition all_bounded (pop : list Chromosome) : Prop :=
  forall c, c ∈ pop -> bounded c.

(** The read-back of a rendering: [gl cmds] stands for the bytes
    [glReadPixels] returns after [glClear] and the calls [cmds]. *)
Definition rendering (gl : list gl_cmd -> list Z) (c : Chromosome) : list Z :=
  gl (draw c).

(** What reset mutation, started at the generator [s] and now at [s'], may
    have done to [c] when it holds [y]: a coordinate is the one of [c] or the
    draw that follows a coin above 1/2; the RGB colour of a triangle is the
    one of [c] or the three draws that follow a coin above 1/2. *)
Definition reset_of (c : Chromosome) (s s' : seed_t) (y : Chromosome) : Prop :=
  (forall i j k, point y i j k = point c i j k \/
     exists n, pos s <= n /\ S n < pos s' /\
       gtb (uval s n) (Num (1 # 2)) = true /\
       point y i j k = uval s (S n)) /\
  (forall i, color y i 3 = color c i 3 /\
     ((forall ch, ch < 3 -> color y i ch = color c i ch) \/
      exists n, pos s <= n /\ n + 3 < pos s' /\
        gtb (uval s n) (Num (1 # 2)) = true /\
        color y i 0 = uval s (n + 1) /\
        color y i 1 = uval s (n + 2) /\
        color y i 2 = uval s (n + 3))).

(** * Properties *)

(** ** Facts about doubles *)

Lemma is_zero_false q : is_zero q = false <-> ~ (q == 0)%Q.
Proof.
  unfold is_zero. split.
  - intros H E. apply Qeq_bool_iff in E. congruence.
  - intros H. destruct (Qeq_bool q 0) eqn:E; [|reflexivity].
    apply Qeq_bool_iff in E. contradiction.
Qed.

(** A value that passes the bounds test of [mutate_disturb] is in [0,1]
    unless it is NaN. *)
Lemma off_bounds_false x : x <> NaN -> off_bounds x = false -> in_unit x.
Proof.
  unfold off_bounds, gtb. intros Hn H. apply orb_false_iff in H as [H0 H1].
  destruct x as [q|[]|]; simpl in *; try discriminate; try congruence.
  apply negb_false_iff in H0, H1. rewrite !Qle_bool_iff in *. tauto.
Qed.

Lemma to_int_of_int z :
  (INT_MIN <= z <= INT_MAX)%Z -> to_int (of_int z) = z.
Proof.
  intros H. unfold to_int, of_int, inject_Z. cbn [Qnum Qden].
  rewrite Z.quot_1_r.
  destruct (INT_MIN <=? z)%Z eqn:E1; destruct (z <=? INT_MAX)%Z eqn:E2;
    simpl; try reflexivity; lia.
Qed.

(** ** Facts about the generator *)

Lemma U_RND_value s :
  fst (U_RND s) = Num (inject_Z (draws s (pos s)) / inject_Z RAND_MAX).
Proof. reflexivity. Qed.

Lemma quotient_unit r :
  (0 <= r <= RAND_MAX)%Z ->
  (0 <= inject_Z r / inject_Z RAND_MAX /\
   inject_Z r / inject_Z RAND_MAX <= 1)%Q.
Proof.
  intros [H0 H1]. split.
  - apply Qle_shift_div_l; [reflexivity|].
    rewrite Qmult_0_l. change 0%Q with (inject_Z 0).
    rewrite <- Zle_Qle. exact H0.
  - apply Qle_shift_div_r; [reflexivity|].
    rewrite Qmult_1_l. rewrite <- Zle_Qle. exact H1.
Qed.

Lemma U_RND_unit s : ok s -> in_unit (fst (U_RND s)).
Proof. intros H. rewrite U_RND_value. apply quotient_unit, H. Qed.

Lemma ok_extends s s' : ok s -> extends s s' -> ok s'.
Proof. intros H [E _] n. rewrite E. apply H. Qed.

Lemma extends_refl s : extends s s.
Proof. split; [reflexivity | lia]. Qed.

Lemma extends_trans s1 s2 s3 : extends s1 s2 -> extends s2 s3 -> extends s1 s3.
Proof. intros [E1 L1] [E2 L2]. split; [congruence | lia]. Qed.

Lemma extends_U_RND s : extends s (snd (U_RND s)).
Proof. split; simpl; [reflexivity | lia]. Qed.

Lemma extends_RND s : extends s (snd (RND s)).
Proof. split; simpl; [reflexivity | lia]. Qed.

(** ** Rules for [Rand] computations *)

Lemma hoare_ret {A} (P : seed_t -> Prop) (Q : A -> seed_t -> Prop) a :
  (forall s, P s -> Q a s) -> hoare P (ret a) Q.
Proof. intros H s Hs. apply H, Hs. Qed.

Lemma hoare_bind {A B} (P : seed_t -> Prop) (R : A -> seed_t -> Prop)
    (Q : B -> seed_t -> Prop) (m : Rand A) (k : A -> Rand B) :
  hoare P m R -> (forall a, hoare (R a) (k a) Q) -> hoare P (bind m k) Q.
Proof. intros Hm Hk s Hs. unfold bind. apply Hk, Hm, Hs. Qed.

Lemma hoare_conseq {A} (P P' : seed_t -> Prop) (Q Q' : A -> seed_t -> Prop) m :
  hoare P' m Q' -> (forall s, P s -> P' s) ->
  (forall a s, Q' a s -> Q a s) -> hoare P m Q.
Proof. intros Hm HP HQ s Hs. apply HQ, Hm, HP, Hs. Qed.

(** The invariant rule of the counted loop. *)
Lemma hoare_for {St} (Inv : nat -> St -> seed_t -> Prop) body n :
  forall lo x,
  (forall i x, lo <= i < lo + n ->
     hoare (Inv i x) (body i x) (Inv (S i))) ->
  hoare (Inv lo x) (for_loop n lo body x) (Inv (lo + n)).
Proof.
  induction n as [|n IH]; intros lo x Hbody.
  - rewrite Nat.add_0_r. apply hoare_ret. auto.
  - cbn [for_loop]. eapply hoare_bind.
    + apply Hbody. lia.
    + intros x'. replace (lo + S n) with (S lo + n) by lia.
      apply IH. intros i y Hi. apply Hbody. lia.
Qed.

(** ** Reading the arrays after a write *)

Lemma point_copy_point a c i j i' j' k' :
  point (copy_point a c i j) i' j' k' =
  if (i' =? i) && (j' =? j) && (k' <? 2) then point a i' j' k'
  else point c i' j' k'.
Proof.
  unfold copy_point. cbn [point set_point].
  destruct (Nat.eqb_spec i' i) as [->|]; simpl; [|reflexivity].
  destruct (Nat.eqb_spec j' j) as [->|]; simpl; [|reflexivity].
  destruct k' as [|[|k']]; reflexivity.
Qed.

Lemma color_copy_color a c i i' ch :
  color (copy_color a c i) i' ch =
  if (i' =? i) && (ch <? 3) then color a i' ch else color c i' ch.
Proof.
  unfold copy_color. cbn [color set_color].
  destruct (Nat.eqb_spec i' i) as [->|]; simpl; [|reflexivity].
  destruct ch as [|[|[|ch]]]; reflexivity.
Qed.

Lemma color_copy_point a c i j : color (copy_point a c i j) = color c.
Proof. reflexivity. Qed.

Lemma point_copy_color a c i : point (copy_color a c i) = point c.
Proof. reflexivity. Qed.

Lemma for_pure_inv {St} (Inv : nat -> St -> Prop) body n :
  forall lo x,
  Inv lo x ->
  (forall i y, lo <= i < lo + n -> Inv i y -> Inv (S i) (body i y)) ->
  Inv (lo + n) (for_pure n lo body x).
Proof.
  induction n as [|n IH]; intros lo x H0 Hstep; cbn [for_pure].
  - rewrite Nat.add_0_r. exact H0.
  - replace (lo + S n) with (S lo + n) by lia. apply IH.
    + apply Hstep; [lia | exact H0].
    + intros i y Hi. apply Hstep. lia.
Qed.

Ltac index_cases :=
  repeat match goal with
  | |- context [Nat.eqb ?a ?b] => destruct (Nat.eqb_spec a b)
  | |- context [Nat.ltb ?a ?b] => destruct (Nat.ltb_spec a b)
  end; subst; simpl; try reflexivity; try lia.

(** ** One-point crossover *)

(** What the copy loops leave in every cell of [c]. *)
Lemma one_point_copy_cells p a b c :
  let donor := fun i => if (Z.of_nat i <? p)%Z then a else b in
  let c' := one_point_copy p a b c in
  (forall i j k, point c' i j k =
     if (i <? N) && (j <? V) && (k <? 2) then point (donor i) i j k
     else point c i j k) /\
  (forall i ch, color c' i ch =
     if (i <? N) && (ch <? 3) then color (donor i) i ch else color c i ch) /\
  fit_val c' = fit_val c /\ window c' = window c.
Proof.
  intros donor c'. subst c'. unfold one_point_copy.
  set (c1 := for_pure N 0 _ c).
  assert (H1 : (forall i j k, point c1 i j k =
                  if (i <? 0 + N) && (j <? V) && (k <? 2)
                  then point (donor i) i j k else point c i j k) /\
               color c1 = color c /\ fit_val c1 = fit_val c /\
               window c1 = window c).
  { subst c1.
    apply (for_pure_inv (fun n (x : Chromosome) =>
      (forall i j k, point x i j k =
         if (i <? n) && (j <? V) && (k <? 2)
         then point (donor i) i j k else point c i j k) /\
      color x = color c /\ fit_val x = fit_val c /\ window x = window c)).
    - repeat split; intros; reflexivity.
    - intros i y _ (Hp & Hc & Hf & Hw).
      assert (H : (forall i' j k, point (for_pure V 0 (fun j c0 =>
                      if (Z.of_nat i <? p)%Z then copy_point a c0 i j
                      else copy_point b c0 i j) y) i' j k =
                     if (i' =? i) && (j <? 0 + V) && (k <? 2)
                     then point (donor i) i' j k else point y i' j k) /\
                  color (for_pure V 0 (fun j c0 =>
                      if (Z.of_nat i <? p)%Z then copy_point a c0 i j
                      else copy_point b c0 i j) y) = color y /\
                  fit_val (for_pure V 0 (fun j c0 =>
                      if (Z.of_nat i <? p)%Z then copy_point a c0 i j
                      else copy_point b c0 i j) y) = fit_val y /\
                  window (for_pure V 0 (fun j c0 =>
                      if (Z.of_nat i <? p)%Z then copy_point a c0 i j
                      else copy_point b c0 i j) y) = window y).
      { apply (for_pure_inv (fun m (x : Chromosome) =>
          (forall i' j k, point x i' j k =
             if (i' =? i) && (j <? m) && (k <? 2)
             then point (donor i) i' j k else point y i' j k) /\
          color x = color y /\ fit_val x = fit_val y /\ window x = window y)).
        - repeat split; intros; rewrite ?andb_false_r; reflexivity.
        - intros j z _ (Hzp & Hzc & Hzf & Hzw).
          replace (if (Z.of_nat i <? p)%Z then copy_point a z i j
                   else copy_point b z i j)
            with (copy_point (donor i) z i j)
            by (unfold donor; destruct (Z.of_nat i <? p)%Z; reflexivity).
          repeat split; auto.
          intros i' j' k. rewrite point_copy_point, Hzp. index_cases. }
      destruct H as (Hp' & Hc' & Hf' & Hw').
      repeat split; try congruence.
      intros i' j k. rewrite Hp', Hp. index_cases. }
  destruct H1 as (Hp & Hc & Hf & Hw).
  assert (H2 : (forall i ch, color (for_pure N 0 (fun i c0 =>
                    if (Z.of_nat i <? p)%Z then copy_color a c0 i
                    else copy_color b c0 i) c1) i ch =
                  if (i <? 0 + N) && (ch <? 3) then color (donor i) i ch
                  else color c1 i ch) /\
               point (for_pure N 0 (fun i c0 =>
                    if (Z.of_nat i <? p)%Z then copy_color a c0 i
                    else copy_color b c0 i) c1) = point c1 /\
               fit_val (for_pure N 0 (fun i c0 =>
                    if (Z.of_nat i <? p)%Z then copy_color a c0 i
                    else copy_color b c0 i) c1) = fit_val c1 /\
               window (for_pure N 0 (fun i c0 =>
                    if (Z.of_nat i <? p)%Z then copy_color a c0 i
                    else copy_color b c0 i) c1) = window c1).
  { apply (for_pure_inv (fun n (x : Chromosome) =>
      (forall i ch, color x i ch =
         if (i <? n) && (ch <? 3) then color (donor i) i ch
         else color c1 i ch) /\
      point x = point c1 /\ fit_val x = fit_val c1 /\ window x = window c1)).
    - repeat split; intros; reflexivity.
    - intros i y _ (Hyc & Hyp & Hyf & Hyw).
      replace (if (Z.of_nat i <? p)%Z then copy_color a y i
               else copy_color b y i)
        with (copy_color (donor i) y i)
        by (unfold donor; destruct (Z.of_nat i <? p)%Z; reflexivity).
      repeat split; auto.
      intros i' ch. rewrite color_copy_color, Hyc. index_cases. }
  destruct H2 as (Hc2 & Hp2 & Hf2 & Hw2).
  repeat split; try congruence.
  - intros i j k. rewrite Hp2. apply Hp.
  - intros i ch. rewrite Hc2, Hc. reflexivity.
Qed.

Lemma one_point_copy_triangle p a b c i :
  i < N ->
  same_triangle (one_point_copy p a b c)
                (if (Z.of_nat i <? p)%Z then a else b) i.
Proof.
  intros Hi. destruct (one_point_copy_cells p a b c) as (Hp & Hc & _).
  split.
  - intros j k Hj Hk. rewrite Hp.
    apply Nat.ltb_lt in Hi, Hj, Hk. rewrite Hi, Hj, Hk. reflexivity.
  - intros ch Hch. rewrite Hc.
    apply Nat.ltb_lt in Hi, Hch. rewrite Hi, Hch. reflexivity.
Qed.

(** The cut index is the ceiling of [u * N] for the draw [u] and lies in
    [0, N]. *)
Lemma cut_point_range s :
  ok s ->
  fst (cut_point s) =
    Qceiling (inject_Z (draws s (pos s)) / inject_Z RAND_MAX
              * inject_Z (Z.of_nat N)) /\
  (0 <= fst (cut_point s) <= Z.of_nat N)%Z.
Proof.
  intros Hok. destruct (quotient_unit _ (Hok (pos s))) as [H0 H1].
  set (u := (inject_Z (draws s (pos s)) / inject_Z RAND_MAX)%Q) in *.
  assert (Hc : (0 <= Qceiling (u * inject_Z (Z.of_nat N)) <= Z.of_nat N)%Z).
  { split.
    - rewrite <- (Qceiling_Z 0). apply Qceiling_resp_le.
      change (inject_Z 0) with 0%Q. apply Qmult_le_0_compat; [exact H0|].
      unfold Qle; simpl; lia.
    - rewrite <- (Qceiling_Z (Z.of_nat N)) at 2. apply Qceiling_resp_le.
      rewrite <- (Qmult_1_l (inject_Z (Z.of_nat N))) at 2.
      apply Qmult_le_compat_r; [exact H1|]. unfold Qle; simpl; lia. }
  assert (E : fst (cut_point s) = Qceiling (u * inject_Z (Z.of_nat N))).
  { unfold cut_point, bind, ret. cbn [fst snd]. rewrite U_RND_value.
    fold u. cbn [mul ceil]. apply to_int_of_int.
    assert (HN : Z.of_nat N = 150%Z) by reflexivity.
    unfold INT_MIN, INT_MAX. lia. }
  rewrite E. split; [reflexivity | exact Hc].
Qed.

(** C5. One-point crossover cuts at [p = ceil(u * N)], which lies in
    [0, N]; child triangle [i] (its three vertices and its RGB colour) is
    parent A's for [i < p] and parent B's for [i >= p].  With [p = 0] the
    child is B throughout, with [p = N] it is A throughout. *)
Theorem one_point_co_correct (a b c : Chromosome) (s : seed_t) :
  ok s ->
  let u := (inject_Z (draws s (pos s)) / inject_Z RAND_MAX)%Q in
  let p := fst (cut_point s) in
  let c' := fst (one_point_co a b c s) in
  fst (U_RND s) = Num u /\
  p = Qceiling (u * inject_Z (Z.of_nat N)) /\
  (0 <= p <= Z.of_nat N)%Z /\
  (forall i, i < N -> (Z.of_nat i < p)%Z -> same_triangle c' a i) /\
  (forall i, i < N -> (p <= Z.of_nat i)%Z -> same_triangle c' b i) /\
  (p = 0%Z -> forall i, i < N -> same_triangle c' b i) /\
  (p = Z.of_nat N -> forall i, i < N -> same_triangle c' a i).
Proof.
  intros Hok u p c'. destruct (cut_point_range s Hok) as [Hp Hr].
  assert (Hc : c' = one_point_copy p a b c) by reflexivity.
  assert (Ha : forall i, i < N -> (Z.of_nat i < p)%Z -> same_triangle c' a i).
  { intros i Hi Hlt. rewrite Hc.
    pose proof (one_point_copy_triangle p a b c i Hi) as H.
    apply Z.ltb_lt in Hlt. rewrite Hlt in H. exact H. }
  assert (Hb : forall i, i < N -> (p <= Z.of_nat i)%Z -> same_triangle c' b i).
  { intros i Hi Hge. rewrite Hc.
    pose proof (one_point_copy_triangle p a b c i Hi) as H.
    apply Z.ltb_ge in Hge. rewrite Hge in H. exact H. }
  split; [apply U_RND_value|]. split; [exact Hp|]. split; [exact Hr|].
  split; [exact Ha|]. split; [exact Hb|]. split.
  - intros E i Hi. apply Hb; [exact Hi | lia].
  - intros E i Hi. apply Ha; [exact Hi | lia].
Qed.

(** ** Uniform crossover *)

(** A coin flip between two values returns one of them and consumes one
    draw. *)
Lemma coin_choice {A} (t : dbl) (x y : A) s :
  exists d, (d = x \/ d = y) /\
    (let* u := U_RND in if ltb u t then ret x else ret y) s
    = (d, snd (U_RND s)).
Proof.
  unfold bind, ret. destruct (ltb (fst (U_RND s)) t); eauto.
Qed.

(** What one pass of the inner loop body of [n_points_co] writes when the
    donor is [d]. *)
Lemma copy_vertex_cells d x i j :
  (forall i' j' k, point (copy_color d (copy_point d x i j) i) i' j' k =
     if (i' =? i) && (j' =? j) && (k <? 2) then point d i' j' k
     else point x i' j' k) /\
  (forall i' ch, color (copy_color d (copy_point d x i j) i) i' ch =
     if (i' =? i) && (ch <? 3) then color d i' ch else color x i' ch).
Proof.
  split; intros.
  - rewrite point_copy_color. apply point_copy_point.
  - rewrite color_copy_color, color_copy_point. reflexivity.
Qed.

(** Every vertex of the child is the same vertex of one of the parents, the
    colour of every triangle is the colour of one of the parents; alpha, the
    cached fitness and the buffer of the child are not written. *)
Lemma n_points_co_cells a b c s :
  let c' := fst (n_points_co a b c s) in
  (forall i j, i < N -> j < V ->
     (forall k, k < 2 -> point c' i j k = point a i j k) \/
     (forall k, k < 2 -> point c' i j k = point b i j k)) /\
  (forall i, i < N ->
     (forall ch, ch < 3 -> color c' i ch = color a i ch) \/
     (forall ch, ch < 3 -> color c' i ch = color b i ch)) /\
  (forall i, color c' i 3 = color c i 3) /\
  fit_val c' = fit_val c /\ window c' = window c /\
  extends s (snd (n_points_co a b c s)).
Proof.
  set (vert := fun (x : Chromosome) i j =>
    (forall k, k < 2 -> point x i j k = point a i j k) \/
    (forall k, k < 2 -> point x i j k = point b i j k)).
  set (col := fun (x : Chromosome) i =>
    (forall ch, ch < 3 -> color x i ch = color a i ch) \/
    (forall ch, ch < 3 -> color x i ch = color b i ch)).
  set (meta := fun (x : Chromosome) (s' : seed_t) =>
    (forall i, color x i 3 = color c i 3) /\
    fit_val x = fit_val c /\ window x = window c /\ extends s s').
  set (Inv := fun n (x : Chromosome) (s' : seed_t) =>
    (forall i j, i < n -> j < V -> vert x i j) /\
    (forall i, i < n -> col x i) /\ meta x s').
  assert (H : hoare (Inv 0 c) (n_points_co a b c) (Inv (0 + N))).
  { unfold n_points_co. apply (hoare_for Inv). intros i y _.
    set (Inn := fun m (x : Chromosome) (s' : seed_t) =>
      (forall i' j, i' < i -> j < V -> vert x i' j) /\
      (forall i', i' < i -> col x i') /\
      (forall j, j < m -> vert x i j) /\
      (0 < m -> col x i) /\ meta x s').
    eapply hoare_conseq; [apply (hoare_for Inn) with (lo := 0) | |].
    - intros j z _ s' (Hv & Hc & Hcur & Hcc & Ha & Hf & Hw & He).
      destruct (coin_choice (Num (1 # 2))
                  (copy_color a (copy_point a z i j) i)
                  (copy_color b (copy_point b z i j) i) s')
        as (d & Hd & E).
      rewrite E. cbn [fst snd].
      assert (Hcells : exists p, (p = a \/ p = b) /\
                d = copy_color p (copy_point p z i j) i).
      { destruct Hd as [->| ->]; eauto. }
      destruct Hcells as (p & Hp & ->).
      destruct (copy_vertex_cells p z i j) as [Hpt Hcl].
      unfold Inn, meta.
      split; [|split; [|split; [|split; [|split; [|split; [|split]]]]]].
      + intros i' j' Hi' Hj'. unfold vert.
        destruct (Hv i' j' Hi' Hj') as [H|H]; [left|right];
          intros k Hk; rewrite Hpt;
          (destruct (Nat.eqb_spec i' i); [lia|]); simpl; auto.
      + intros i' Hi'. unfold col.
        destruct (Hc i' Hi') as [H|H]; [left|right];
          intros ch Hch; rewrite Hcl;
          (destruct (Nat.eqb_spec i' i); [lia|]); simpl; auto.
      + intros j' Hj'. unfold vert.
        destruct (Nat.eq_dec j' j) as [->|Hne].
        * destruct Hp as [->| ->]; [left|right]; intros k Hk;
            rewrite Hpt, !Nat.eqb_refl, (proj2 (Nat.ltb_lt k 2) Hk);
            reflexivity.
        * destruct (Hcur j' ltac:(lia)) as [H|H]; [left|right];
            intros k Hk; rewrite Hpt;
            (destruct (Nat.eqb_spec j' j); [lia|]);
            rewrite andb_false_r; simpl; auto.
      + intros _. unfold col.
        destruct Hp as [->| ->]; [left|right]; intros ch Hch;
          rewrite Hcl, Nat.eqb_refl, (proj2 (Nat.ltb_lt ch 3) Hch);
          reflexivity.
      + intros t. rewrite Hcl.
        replace (3 <? 3) with false by reflexivity.
        rewrite andb_false_r. apply Ha.
      + exact Hf.
      + exact Hw.
      + eapply extends_trans; [exact He | apply extends_U_RND].
    - intros s' (Hv & Hc & Hm). unfold Inn.
      split; [exact Hv|]. split; [exact Hc|].
      split; [intros; lia|]. split; [intros; lia | exact Hm].
    - intros x s' (Hv & Hc & Hcur & Hcc & Hm). unfold Inv.
      split; [|split; [|exact Hm]].
      + intros i' j Hi' Hj. destruct (Nat.eq_dec i' i) as [->|].
        * apply Hcur. exact Hj.
        * apply Hv; [lia | exact Hj].
      + intros i' Hi'. destruct (Nat.eq_dec i' i) as [->|].
        * apply Hcc. unfold V. lia.
        * apply Hc. lia. }
  specialize (H s). destruct H as (Hv & Hc & Ha & Hf & Hw & He).
  { unfold Inv, meta. split; [intros; lia|]. split; [intros; lia|].
    split; [reflexivity|]. split; [reflexivity|].
    split; [reflexivity | apply extends_refl]. }
  cbv zeta. auto 10.
Qed.

(** C9. Crossing a genome with itself, by either operator, gives a child
    whose [N] triangles (vertices and RGB colour) are that genome's, whatever
    cut index or coins are drawn. *)
Theorem crossover_self_pairing (a c : Chromosome) (s : seed_t) (i : nat) :
  i < N ->
  same_triangle (fst (one_point_co a a c s)) a i /\
  same_triangle (fst (n_points_co a a c s)) a i.
Proof.
  intros Hi. split.
  - change (fst (one_point_co a a c s))
      with (one_point_copy (fst (cut_point s)) a a c).
    pose proof (one_point_copy_triangle (fst (cut_point s)) a a c i Hi) as H.
    destruct (Z.of_nat i <? fst (cut_point s))%Z; exact H.
  - destruct (n_points_co_cells a a c s) as (Hv & Hc & _). split.
    + intros j k Hj Hk. destruct (Hv i j Hi Hj) as [H|H]; apply H, Hk.
    + intros ch Hch. destruct (Hc i Hi) as [H|H]; apply H, Hch.
Qed.

(** ** Mutation: the single statements *)

Lemma frame_refl c : frame c c.
Proof. repeat split. Qed.

Lemma frame_set_color c x i ch v :
  ch < 3 -> frame c x -> frame c (set_color x i ch v).
Proof.
  intros Hch (A & F & W). split; [|split; assumption].
  intros t. cbn [color set_color].
  destruct (Nat.eqb_spec 3 ch); [lia|]. rewrite andb_false_r. apply A.
Qed.

Lemma bounded_set_point x i j k v :
  bounded x -> in_unit v -> bounded (set_point x i j k v).
Proof.
  intros [Hp Hc] Hv. split; [|exact Hc].
  intros i' j' k' Hi Hj Hk. cbn [point set_point].
  destruct ((i' =? i) && (j' =? j) && (k' =? k)); auto.
Qed.

Lemma bounded_set_color x i ch v :
  bounded x -> in_unit v -> bounded (set_color x i ch v).
Proof.
  intros [Hp Hc] Hv. split; [exact Hp|].
  intros i' ch' Hi Hch. cbn [color set_color].
  destruct ((i' =? i) && (ch' =? ch)); auto.
Qed.

Lemma ok_U_RND s : ok s -> ok (snd (U_RND s)).
Proof. intros H. eapply ok_extends; [exact H | apply extends_U_RND]. Qed.

Lemma extends_step_R s0 s : extends s0 s -> extends s0 (snd (RND s)).
Proof. intros H. eapply extends_trans; [exact H | apply extends_RND]. Qed.

(** [RND] is a finite number and, [RAND_MAX] being odd, never zero. *)
Lemma RND_value s :
  fst (RND s) =
  Num (2 * inject_Z (draws s (pos s)) / inject_Z RAND_MAX + - (1)).
Proof. reflexivity. Qed.

(** For a generator with maximum [M] the value of [RND] is zero exactly at
    the draw [M / 2], which exists only when [M] is even. *)
Lemma RND_zero_iff (M r : Z) :
  (0 < M)%Z ->
  (2 * inject_Z r / inject_Z M + - (1) == 0)%Q <-> (2 * r = M)%Z.
Proof.
  intros HM. destruct M as [|p|p]; try lia.
  unfold Qeq, Qdiv, Qmult, Qplus, Qinv, Qopp, inject_Z.
  cbn [Qnum Qden]. lia.
Qed.

Lemma RND_nonzero r :
  ~ (2 * inject_Z r / inject_Z RAND_MAX + - (1) == 0)%Q.
Proof.
  intros H. apply RND_zero_iff in H; [|reflexivity].
  unfold RAND_MAX in H. lia.
Qed.

(** A finite value plus a non-zero finite value over any number is a
    number: at worst an infinity. *)
Lemma add_div_number a q d :
  ~ (q == 0)%Q -> d <> NaN -> add (Num a) (div (Num q) d) <> NaN.
Proof.
  intros Hq Hd. destruct d as [dq|sg|]; [| |congruence]; cbn [div].
  - destruct (is_zero dq).
    + apply is_zero_false in Hq. rewrite Hq. discriminate.
    + discriminate.
  - discriminate.
Qed.

Lemma perturbed_number x d s :
  in_unit x -> d <> NaN -> add x (div (fst (RND s)) d) <> NaN.
Proof.
  intros Hx Hd. destruct x as [a| |]; try contradiction.
  rewrite RND_value. apply add_div_number; [apply RND_nonzero | exact Hd].
Qed.

Lemma perturbed_color_number x d s :
  in_unit x -> d <> NaN -> add x (div (mul (Num 10) (fst (RND s))) d) <> NaN.
Proof.
  intros Hx Hd. destruct x as [a| |]; try contradiction.
  rewrite RND_value. cbn [mul]. apply add_div_number; [|exact Hd].
  intros E. apply (RND_nonzero (draws s (pos s))).
  apply (Qmult_integral_l 10); [discriminate | exact E].
Qed.

(** The perturbation writes the two coordinates of vertex [(j, k)] only; each
    is left alone or moved by [RND / disturb]. *)
Lemma perturb_point_spec d j k x s :
  let pt := perturb_point d j k x s in
  (forall i' j' k', ~ (i' = j /\ j' = k /\ k' < 2) ->
     point (fst pt) i' j' k' = point x i' j' k') /\
  (forall i, i < 2 ->
     point (fst pt) j k i = point x j k i \/
     exists st, point (fst pt) j k i = add (point x j k i) (div (fst (RND st)) d)) /\
  color (fst pt) = color x /\ fit_val (fst pt) = fit_val x /\
  window (fst pt) = window x /\ extends s (snd pt).
Proof.
  unfold perturb_point, bind, ret. cbn [fst snd].
  destruct (ltb (fst (U_RND s)) (Num (1 # 4))); cbn [fst snd].
  - split; [|split; [|split; [|split; [|split]]]]; try reflexivity.
    + intros i' j' k' Hne. cbn [point set_point]. index_cases; tauto.
    + intros i Hi. right. cbn [point set_point]. rewrite !Nat.eqb_refl.
      destruct i as [|[|i]]; [| |lia]; cbn [Nat.eqb andb]; eauto.
    + apply extends_step_R, extends_step_R, extends_U_RND.
  - split; [|split; [|split; [|split; [|split]]]]; try reflexivity.
    + intros i Hi. left. reflexivity.
    + apply extends_U_RND.
Qed.

(** The bounds test on one coordinate: an off-bounds value is replaced by the
    next draw of [U_RND], any other value is kept; nothing else is written. *)
Lemma renew_point_spec j k i x s :
  let r := renew_point j k i x s in
  point (fst r) j k i =
    (if off_bounds (point x j k i) then fst (U_RND s) else point x j k i) /\
  (forall i' j' k', ~ (i' = j /\ j' = k /\ k' = i) ->
     point (fst r) i' j' k' = point x i' j' k') /\
  color (fst r) = color x /\ fit_val (fst r) = fit_val x /\
  window (fst r) = window x /\ extends s (snd r).
Proof.
  unfold renew_point, bind, ret.
  destruct (off_bounds (point x j k i)); cbn [fst snd].
  - split; [|split; [|split; [|split; [|split]]]]; try reflexivity.
    + cbn [point set_point]. rewrite !Nat.eqb_refl. reflexivity.
    + intros i' j' k' Hne. cbn [point set_point]. index_cases; tauto.
    + apply extends_U_RND.
  - split; [|split; [|split; [|split; [|split]]]]; try reflexivity.
    apply extends_refl.
Qed.

(** The same for the colour of triangle [j]. *)
Lemma perturb_color_spec d j x s :
  let pt := perturb_color d j x s in
  (forall i' ch, ~ (i' = j /\ ch < 3) -> color (fst pt) i' ch = color x i' ch) /\
  (forall ch, ch < 3 ->
     color (fst pt) j ch = color x j ch \/
     exists st, color (fst pt) j ch =
       add (color x j ch) (div (mul (Num 10) (fst (RND st))) d)) /\
  point (fst pt) = point x /\ fit_val (fst pt) = fit_val x /\
  window (fst pt) = window x /\ extends s (snd pt).
Proof.
  unfold perturb_color, bind, ret. cbn [fst snd].
  destruct (ltb (fst (U_RND s)) (Num (1 # 2))); cbn [fst snd].
  - split; [|split; [|split; [|split; [|split]]]]; try reflexivity.
    + intros i' ch Hne. cbn [color set_color]. index_cases; tauto.
    + intros ch Hch. right. cbn [color set_color]. rewrite !Nat.eqb_refl.
      destruct ch as [|[|[|ch]]]; [| | |lia]; cbn [Nat.eqb andb]; eauto.
    + apply extends_step_R, extends_step_R, extends_step_R, extends_U_RND.
  - split; [|split; [|split; [|split; [|split]]]]; try reflexivity.
    + intros ch Hch. left. reflexivity.
    + apply extends_U_RND.
Qed.

Lemma renew_color_spec j ch x s :
  let r := renew_color j ch x s in
  color (fst r) j ch =
    (if off_bounds (color x j ch) then fst (U_RND s) else color x j ch) /\
  (forall i' ch', ~ (i' = j /\ ch' = ch) ->
     color (fst r) i' ch' = color x i' ch') /\
  point (fst r) = point x /\ fit_val (fst r) = fit_val x /\
  window (fst r) = window x /\ extends s (snd r).
Proof.
  unfold renew_color, bind, ret.
  destruct (off_bounds (color x j ch)); cbn [fst snd].
  - split; [|split; [|split; [|split; [|split]]]]; try reflexivity.
    + cbn [color set_color]. rewrite !Nat.eqb_refl. reflexivity.
    + intros i' ch' Hne. cbn [color set_color]. index_cases; tauto.
    + apply extends_U_RND.
  - split; [|split; [|split; [|split; [|split]]]]; try reflexivity.
    apply extends_refl.
Qed.

(** ** Mutation: one vertex and one colour *)

(** The inner loop body of [mutate_disturb]: each coordinate of vertex
    [(j, k)] ends as the perturbed value when that passes the bounds test and
    as the next draw of [U_RND] otherwise. *)
Lemma disturb_vertex_cells d j k x s :
  let pt := perturb_point d j k x s in
  let g0 := renew_point j k 0 (fst pt) (snd pt) in
  let r := disturb_vertex d j k x s in
  point (fst r) j k 0 =
    (if off_bounds (point (fst pt) j k 0) then fst (U_RND (snd pt))
     else point (fst pt) j k 0) /\
  point (fst r) j k 1 =
    (if off_bounds (point (fst pt) j k 1) then fst (U_RND (snd g0))
     else point (fst pt) j k 1) /\
  (forall i' j' k', ~ (i' = j /\ j' = k /\ k' < 2) ->
     point (fst r) i' j' k' = point x i' j' k') /\
  color (fst r) = color x /\ fit_val (fst r) = fit_val x /\
  window (fst r) = window x /\ extends s (snd r).
Proof.
  intros pt g0 r.
  assert (Hr : r = renew_point j k 1 (fst g0) (snd g0)) by reflexivity.
  pose proof (perturb_point_spec d j k x s) as (P1 & _ & P3 & P4 & P5 & P6).
  pose proof (renew_point_spec j k 0 (fst pt) (snd pt))
    as (G1 & G2 & G3 & G4 & G5 & G6).
  pose proof (renew_point_spec j k 1 (fst g0) (snd g0))
    as (R1 & R2 & R3 & R4 & R5 & R6).
  fold pt in P1, P3, P4, P5, P6. fold g0 in G1, G2, G3, G4, G5, G6.
  rewrite <- Hr in R1, R2, R3, R4, R5, R6.
  split; [|split; [|split; [|split; [|split; [|split]]]]].
  - rewrite R2 by lia. exact G1.
  - rewrite R1. rewrite (G2 j k 1) by lia. reflexivity.
  - intros i' j' k' Hne. rewrite R2, G2, P1 by lia. reflexivity.
  - congruence.
  - congruence.
  - congruence.
  - eapply extends_trans; [|exact R6].
    eapply extends_trans; [exact P6 | exact G6].
Qed.

(** The colour part of the outer loop body. *)
Lemma disturb_color_cells d j x s :
  let pt := perturb_color d j x s in
  let g0 := renew_color j 0 (fst pt) (snd pt) in
  let g1 := renew_color j 1 (fst g0) (snd g0) in
  let r := disturb_color d j x s in
  color (fst r) j 0 =
    (if off_bounds (color (fst pt) j 0) then fst (U_RND (snd pt))
     else color (fst pt) j 0) /\
  color (fst r) j 1 =
    (if off_bounds (color (fst pt) j 1) then fst (U_RND (snd g0))
     else color (fst pt) j 1) /\
  color (fst r) j 2 =
    (if off_bounds (color (fst pt) j 2) then fst (U_RND (snd g1))
     else color (fst pt) j 2) /\
  (forall i' ch, ~ (i' = j /\ ch < 3) -> color (fst r) i' ch = color x i' ch) /\
  point (fst r) = point x /\ fit_val (fst r) = fit_val x /\
  window (fst r) = window x /\ extends s (snd r).
Proof.
  intros pt g0 g1 r.
  assert (Hr : r = renew_color j 2 (fst g1) (snd g1)) by reflexivity.
  pose proof (perturb_color_spec d j x s) as (P1 & _ & P3 & P4 & P5 & P6).
  pose proof (renew_color_spec j 0 (fst pt) (snd pt))
    as (G1 & G2 & G3 & G4 & G5 & G6).
  pose proof (renew_color_spec j 1 (fst g0) (snd g0))
    as (H1 & H2 & H3 & H4 & H5 & H6).
  pose proof (renew_color_spec j 2 (fst g1) (snd g1))
    as (R1 & R2 & R3 & R4 & R5 & R6).
  fold pt in P1, P3, P4, P5, P6. fold g0 in G1, G2, G3, G4, G5, G6.
  fold g1 in H1, H2, H3, H4, H5, H6.
  rewrite <- Hr in R1, R2, R3, R4, R5, R6.
  split; [|split; [|split; [|split; [|split; [|split; [|split]]]]]].
  - rewrite R2, H2 by lia. exact G1.
  - rewrite R2 by lia. rewrite H1. rewrite (G2 j 1) by lia. reflexivity.
  - rewrite R1. rewrite (H2 j 2), (G2 j 2) by lia. reflexivity.
  - intros i' ch Hne. rewrite R2, H2, G2, P1 by lia. reflexivity.
  - congruence.
  - congruence.
  - congruence.
  - eapply extends_trans; [|exact R6].
    eapply extends_trans; [|exact H6].
    eapply extends_trans; [exact P6 | exact G6].
Qed.

(** ** Mutation: the loops *)

(** A property of the chromosome and the generator that every statement of
    [mutate_disturb] preserves is preserved by [mutate_disturb]. *)
Lemma disturb_triangle_inv (I : Chromosome -> seed_t -> Prop) d j n lo x s :
  (forall k y s', lo <= k < lo + n -> I y s' ->
     I (fst (disturb_vertex d j k y s')) (snd (disturb_vertex d j k y s'))) ->
  I x s ->
  I (fst (for_loop n lo (disturb_vertex d j) x s))
    (snd (for_loop n lo (disturb_vertex d j) x s)).
Proof.
  intros Hv H0.
  apply (hoare_for (fun _ => I) (disturb_vertex d j) n lo x); [|exact H0].
  intros k y Hk s' Hs'. apply Hv; assumption.
Qed.

Lemma mutate_disturb_inv (I : Chromosome -> seed_t -> Prop) d n lo x s :
  (forall j k y s', lo <= j < lo + n -> k < V -> I y s' ->
     I (fst (disturb_vertex d j k y s')) (snd (disturb_vertex d j k y s'))) ->
  (forall j y s', lo <= j < lo + n -> I y s' ->
     I (fst (disturb_color d j y s')) (snd (disturb_color d j y s'))) ->
  I x s ->
  I (fst (for_loop n lo (disturb_triangle d) x s))
    (snd (for_loop n lo (disturb_triangle d) x s)).
Proof.
  intros Hv Hc H0.
  apply (hoare_for (fun _ => I) (disturb_triangle d) n lo x); [|exact H0].
  intros j y Hj s' Hs'. unfold disturb_triangle, bind.
  apply Hc; [exact Hj|]. apply disturb_triangle_inv; [|exact Hs'].
  intros k z s'' Hk. apply Hv; [exact Hj | unfold V in *; lia].
Qed.

Lemma mutate_change_inv (I : Chromosome -> seed_t -> Prop) x s :
  (forall i j k y s', i < N -> j < V -> k < 2 -> I y s' ->
     I (fst (reset_point i j k y s')) (snd (reset_point i j k y s'))) ->
  (forall i y s', i < N -> I y s' ->
     I (fst (reset_color i y s')) (snd (reset_color i y s'))) ->
  I x s ->
  I (fst (mutate_change x s)) (snd (mutate_change x s)).
Proof.
  intros Hp Hc H0. unfold mutate_change.
  apply (hoare_for (fun _ => I) reset_triangle N 0 x); [|exact H0].
  intros i y Hi s' Hs'. unfold reset_triangle. unfold bind at 1.
  apply Hc; [lia|].
  apply (hoare_for (fun _ => I) _ V 0 y); [|exact Hs'].
  intros j z Hj s'' Hs''. unfold bind.
  apply Hp; [lia | lia | lia |]. apply Hp; [lia | lia | lia | exact Hs''].
Qed.

(** ** Mutation keeps the genome in the unit interval *)

Lemma reset_point_good i j k y s :
  bounded y /\ ok s ->
  bounded (fst (reset_point i j k y s)) /\ ok (snd (reset_point i j k y s)).
Proof.
  intros [Hb Hok]. unfold reset_point, bind, ret.
  destruct (gtb (fst (U_RND s)) (Num (1 # 2))); cbn [fst snd].
  - split; [|apply ok_U_RND, ok_U_RND, Hok].
    apply bounded_set_point; [exact Hb|]. apply U_RND_unit, ok_U_RND, Hok.
  - split; [exact Hb | apply ok_U_RND, Hok].
Qed.

Lemma reset_color_good i y s :
  bounded y /\ ok s ->
  bounded (fst (reset_color i y s)) /\ ok (snd (reset_color i y s)).
Proof.
  intros [Hb Hok]. unfold reset_color, bind, ret.
  destruct (gtb (fst (U_RND s)) (Num (1 # 2))); cbn [fst snd].
  - split; [|repeat apply ok_U_RND; exact Hok].
    repeat apply bounded_set_color; try exact Hb;
      apply U_RND_unit; repeat apply ok_U_RND; exact Hok.
  - split; [exact Hb | apply ok_U_RND, Hok].
Qed.

Lemma disturb_vertex_good d j k y s :
  d <> NaN -> j < N -> k < V ->
  bounded y /\ ok s ->
  bounded (fst (disturb_vertex d j k y s)) /\
  ok (snd (disturb_vertex d j k y s)).
Proof.
  intros Hd Hj Hk [[Hp Hc] Hok].
  pose proof (disturb_vertex_cells d j k y s)
    as (C0 & C1 & Cother & Ccol & _ & _ & Hext).
  pose proof (perturb_point_spec d j k y s) as (_ & Pval & _ & _ & _ & Pext).
  pose proof (renew_point_spec j k 0 (fst (perturb_point d j k y s))
                (snd (perturb_point d j k y s)))
    as (_ & _ & _ & _ & _ & Gext).
  split; [|eapply ok_extends; eassumption].
  assert (Hnum : forall i, i < 2 ->
            point (fst (perturb_point d j k y s)) j k i <> NaN).
  { intros i Hi. destruct (Pval i Hi) as [E|[st E]]; rewrite E.
    - specialize (Hp j k i Hj Hk Hi).
      destruct (point y j k i); [discriminate | contradiction..].
    - apply perturbed_number; [apply Hp; assumption | exact Hd]. }
  split.
  - intros i' j' k' Hi' Hj' Hk'.
    destruct (Nat.eq_dec i' j) as [->|Hne];
      [destruct (Nat.eq_dec j' k) as [->|Hne]|].
    + destruct k' as [|[|k']]; [| |lia].
      * rewrite C0.
        destruct (off_bounds (point (fst (perturb_point d j k y s)) j k 0))
          eqn:E.
        -- apply U_RND_unit. eapply ok_extends; eassumption.
        -- apply off_bounds_false; [apply Hnum; lia | exact E].
      * rewrite C1.
        destruct (off_bounds (point (fst (perturb_point d j k y s)) j k 1))
          eqn:E.
        -- apply U_RND_unit. eapply ok_extends; [exact Hok|].
           eapply extends_trans; eassumption.
        -- apply off_bounds_false; [apply Hnum; lia | exact E].
    + rewrite Cother by lia. apply Hp; assumption.
    + rewrite Cother by lia. apply Hp; assumption.
  - intros i' ch Hi' Hch. rewrite Ccol. apply Hc; assumption.
Qed.

Lemma disturb_color_good d j y s :
  d <> NaN -> j < N ->
  bounded y /\ ok s ->
  bounded (fst (disturb_color d j y s)) /\
  ok (snd (disturb_color d j y s)).
Proof.
  intros Hd Hj [[Hp Hc] Hok].
  pose proof (disturb_color_cells d j y s)
    as (C0 & C1 & C2 & Cother & Cpt & _ & _ & Hext).
  pose proof (perturb_color_spec d j y s) as (_ & Pval & _ & _ & _ & Pext).
  pose proof (renew_color_spec j 0 (fst (perturb_color d j y s))
                (snd (perturb_color d j y s)))
    as (_ & _ & _ & _ & _ & Gext).
  pose proof (renew_color_spec j 1
                (fst (renew_color j 0 (fst (perturb_color d j y s))
                                      (snd (perturb_color d j y s))))
                (snd (renew_color j 0 (fst (perturb_color d j y s))
                                      (snd (perturb_color d j y s)))))
    as (_ & _ & _ & _ & _ & Hext1).
  split; [|eapply ok_extends; eassumption].
  assert (Hnum : forall ch, ch < 3 ->
            color (fst (perturb_color d j y s)) j ch <> NaN).
  { intros ch Hch. destruct (Pval ch Hch) as [E|[st E]]; rewrite E.
    - specialize (Hc j ch Hj ltac:(lia)).
      destruct (color y j ch); [discriminate | contradiction..].
    - apply perturbed_color_number; [apply Hc; lia | exact Hd]. }
  assert (Hok0 : ok (snd (perturb_color d j y s)))
    by (eapply ok_extends; eassumption).
  assert (Hok1 : ok (snd (renew_color j 0 (fst (perturb_color d j y s))
                                          (snd (perturb_color d j y s)))))
    by (eapply ok_extends; eassumption).
  assert (Hok2 : ok (snd (renew_color j 1
            (fst (renew_color j 0 (fst (perturb_color d j y s))
                                  (snd (perturb_color d j y s))))
            (snd (renew_color j 0 (fst (perturb_color d j y s))
                                  (snd (perturb_color d j y s)))))))
    by (eapply ok_extends; eassumption).
  split.
  - intros i' j' k' Hi' Hj' Hk'. rewrite Cpt. apply Hp; assumption.
  - intros i' ch Hi' Hch.
    destruct (Nat.eq_dec i' j) as [->|Hne]; [|rewrite Cother by lia; auto].
    destruct ch as [|[|[|ch]]].
    + rewrite C0.
      destruct (off_bounds (color (fst (perturb_color d j y s)) j 0)) eqn:E.
      * apply U_RND_unit, Hok0.
      * apply off_bounds_false; [apply Hnum; lia | exact E].
    + rewrite C1.
      destruct (off_bounds (color (fst (perturb_color d j y s)) j 1)) eqn:E.
      * apply U_RND_unit, Hok1.
      * apply off_bounds_false; [apply Hnum; lia | exact E].
    + rewrite C2.
      destruct (off_bounds (color (fst (perturb_color d j y s)) j 2)) eqn:E.
      * apply U_RND_unit, Hok2.
      * apply off_bounds_false; [apply Hnum; lia | exact E].
    + rewrite Cother by lia. apply Hc; lia.
Qed.

(** C2. A genome whose coordinates and colour channels are in [0,1] stays
    so under disturb mutation, for every intensity that is a number (zero
    and the infinities included), and under reset mutation. *)
Theorem mutation_bounded (c : Chromosome) (d : dbl) (s : seed_t) :
  bounded c -> ok s -> d <> NaN ->
  bounded (fst (mutate_disturb d c s)) /\ bounded (fst (mutate_change c s)).
Proof.
  intros Hb Hok Hd. split.
  - apply (mutate_disturb_inv (fun y s' => bounded y /\ ok s') d N 0 c s).
    + intros j k y s' Hj Hk. apply disturb_vertex_good; [exact Hd | lia | exact Hk].
    + intros j y s' Hj. apply disturb_color_good; [exact Hd | lia].
    + split; assumption.
  - apply (mutate_change_inv (fun y s' => bounded y /\ ok s') c s).
    + intros i j k y s' _ _ _. apply reset_point_good.
    + intros i y s' _. apply reset_color_good.
    + split; assumption.
Qed.

(** ** No operator writes alpha, the cached fitness or the buffer *)

Lemma reset_point_frame c i j k y s :
  frame c y -> frame c (fst (reset_point i j k y s)).
Proof.
  intros H. unfold reset_point, bind, ret.
  destruct (gtb (fst (U_RND s)) (Num (1 # 2))); exact H.
Qed.

Lemma reset_color_frame c i y s :
  frame c y -> frame c (fst (reset_color i y s)).
Proof.
  intros H. unfold reset_color, bind, ret.
  destruct (gtb (fst (U_RND s)) (Num (1 # 2))); cbn [fst snd]; [|exact H].
  repeat (apply frame_set_color; [lia|]). exact H.
Qed.

Lemma disturb_vertex_frame c d j k y s :
  frame c y -> frame c (fst (disturb_vertex d j k y s)).
Proof.
  intros (A & F & W).
  pose proof (disturb_vertex_cells d j k y s) as (_ & _ & _ & Hc & Hf & Hw & _).
  split; [|split; congruence]. intros t. rewrite Hc. apply A.
Qed.

Lemma disturb_color_frame c d j y s :
  frame c y -> frame c (fst (disturb_color d j y s)).
Proof.
  intros (A & F & W).
  pose proof (disturb_color_cells d j y s)
    as (_ & _ & _ & Hc & _ & Hf & Hw & _).
  split; [|split; congruence]. intros t. rewrite Hc by lia. apply A.
Qed.

Lemma mutate_change_frame c s : frame c (fst (mutate_change c s)).
Proof.
  apply (mutate_change_inv (fun y _ => frame c y) c s).
  - intros i j k y s' _ _ _. apply reset_point_frame.
  - intros i y s' _. apply reset_color_frame.
  - apply frame_refl.
Qed.

Lemma mutate_disturb_frame d c s : frame c (fst (mutate_disturb d c s)).
Proof.
  apply (mutate_disturb_inv (fun y _ => frame c y) d N 0 c s).
  - intros j k y s' _ _. apply disturb_vertex_frame.
  - intros j y s' _. apply disturb_color_frame.
  - apply frame_refl.
Qed.

Lemma one_point_co_frame a b c s : frame c (fst (one_point_co a b c s)).
Proof.
  change (fst (one_point_co a b c s))
    with (one_point_copy (fst (cut_point s)) a b c).
  destruct (one_point_copy_cells (fst (cut_point s)) a b c)
    as (_ & Hc & Hf & Hw).
  split; [|split; assumption]. intros t. rewrite Hc.
  replace (3 <? 3) with false by reflexivity.
  rewrite andb_false_r. reflexivity.
Qed.

Lemma n_points_co_frame a b c s : frame c (fst (n_points_co a b c s)).
Proof.
  destruct (n_points_co_cells a b c s) as (_ & _ & Ha & Hf & Hw & _).
  split; [exact Ha | split; assumption].
Qed.

(** ** Where [mutate_disturb] stores a value *)

Lemma for_loop_split {St} (body : nat -> St -> Rand St) n1 n2 :
  forall lo x s,
  for_loop (n1 + n2) lo body x s =
  for_loop n2 (lo + n1) body (fst (for_loop n1 lo body x s))
                             (snd (for_loop n1 lo body x s)).
Proof.
  induction n1 as [|n1 IH]; intros lo x s.
  - cbn [Nat.add for_loop ret fst snd]. rewrite Nat.add_0_r. reflexivity.
  - cbn [Nat.add for_loop]. unfold bind.
    rewrite IH. replace (S lo + n1) with (lo + S n1) by lia. reflexivity.
Qed.

(** The vertex iterations other than [k] leave vertex [(j, k)] alone. *)
Lemma other_vertices_keep d j k n lo x s i :
  (k < lo \/ lo + n <= k) ->
  point (fst (for_loop n lo (disturb_vertex d j) x s)) j k i = point x j k i.
Proof.
  intros Hk.
  apply (disturb_triangle_inv (fun y _ => point y j k i = point x j k i));
    [|reflexivity].
  intros k' y s' Hk' Hy.
  pose proof (disturb_vertex_cells d j k' y s') as (_ & _ & Ho & _).
  rewrite Ho by lia. exact Hy.
Qed.

(** The triangle iterations other than [j] leave triangle [j] alone. *)
Lemma other_triangles_keep d j n lo x s :
  (j < lo \/ lo + n <= j) ->
  (forall k i, point (fst (for_loop n lo (disturb_triangle d) x s)) j k i =
               point x j k i) /\
  (forall ch, color (fst (for_loop n lo (disturb_triangle d) x s)) j ch =
              color x j ch).
Proof.
  intros Hj.
  apply (mutate_disturb_inv (fun y _ =>
    (forall k i, point y j k i = point x j k i) /\
    (forall ch, color y j ch = color x j ch)) d n lo x s).
  - intros j' k y s' Hj' _ [Hp Hc].
    pose proof (disturb_vertex_cells d j' k y s') as (_ & _ & Ho & Hcol & _).
    split.
    + intros k' i. rewrite Ho by lia. apply Hp.
    + intros ch. rewrite Hcol. apply Hc.
  - intros j' y s' Hj' [Hp Hc].
    pose proof (disturb_color_cells d j' y s') as (_ & _ & _ & Ho & Hpt & _).
    split.
    + intros k i. rewrite Hpt. apply Hp.
    + intros ch. rewrite Ho by lia. apply Hc.
  - split; reflexivity.
Qed.

Lemma for_loop_next {St} (body : nat -> St -> Rand St) n lo x s :
  for_loop (S n) lo body x s =
  for_loop n (S lo) body (fst (body lo x s)) (snd (body lo x s)).
Proof. reflexivity. Qed.

(** The value [mutate_disturb] leaves in a coordinate of vertex [(j, k)] is
    the one the inner iteration [(j, k)] stores. *)
Lemma stored_point d c s j k i :
  j < N -> k < V ->
  point (fst (mutate_disturb d c s)) j k i =
  point (fst (disturb_vertex d j k (fst (at_vertex d c s j k))
                                   (snd (at_vertex d c s j k)))) j k i.
Proof.
  intros Hj Hk. unfold mutate_disturb.
  set (m := N - S j). replace N with (j + S m) by (subst m; lia).
  rewrite for_loop_split, for_loop_next. cbn [Nat.add].
  fold (at_triangle d c s j).
  rewrite (proj1 (other_triangles_keep d j m (S j) _ _
                    (or_introl (Nat.lt_succ_diag_r j)))).
  unfold disturb_triangle at 1, bind.
  pose proof (disturb_color_cells d j
    (fst (for_loop V 0 (disturb_vertex d j) (fst (at_triangle d c s j))
                                             (snd (at_triangle d c s j))))
    (snd (for_loop V 0 (disturb_vertex d j) (fst (at_triangle d c s j))
                                             (snd (at_triangle d c s j)))))
    as (_ & _ & _ & _ & Hpt & _).
  rewrite Hpt. clear Hpt.
  set (m' := V - S k). replace V with (k + S m') at 1 by (subst m'; lia).
  rewrite for_loop_split, for_loop_next. cbn [Nat.add].
  fold (at_vertex d c s j k).
  apply other_vertices_keep. lia.
Qed.

(** The value left in an RGB channel of triangle [j] is the one the outer
    iteration [j] stores. *)
Lemma stored_color d c s j ch :
  j < N ->
  color (fst (mutate_disturb d c s)) j ch =
  color (fst (disturb_color d j (fst (at_color d c s j))
                                (snd (at_color d c s j)))) j ch.
Proof.
  intros Hj. unfold mutate_disturb.
  set (m := N - S j). replace N with (j + S m) by (subst m; lia).
  rewrite for_loop_split, for_loop_next. cbn [Nat.add].
  fold (at_triangle d c s j).
  rewrite (proj2 (other_triangles_keep d j m (S j) _ _
                    (or_introl (Nat.lt_succ_diag_r j)))).
  unfold disturb_triangle, bind. reflexivity.
Qed.

(** Vertex [(j, k)] and the colour of triangle [j] still hold the values of
    the genome passed to [mutate_disturb] when their iteration starts. *)
Lemma at_vertex_original d c s j k i :
  point (fst (at_vertex d c s j k)) j k i = point c j k i.
Proof.
  unfold at_vertex. rewrite other_vertices_keep by lia.
  unfold at_triangle. apply other_triangles_keep. lia.
Qed.

Lemma at_color_original d c s j ch :
  color (fst (at_color d c s j)) j ch = color c j ch.
Proof.
  unfold at_color, at_vertex.
  transitivity (color (fst (at_triangle d c s j)) j ch).
  - apply (disturb_triangle_inv (fun y _ =>
      color y j ch = color (fst (at_triangle d c s j)) j ch));
      [|reflexivity].
    intros k y s' _ Hy.
    pose proof (disturb_vertex_cells d j k y s') as (_ & _ & _ & Hc & _).
    rewrite Hc. exact Hy.
  - unfold at_triangle. apply other_triangles_keep. lia.
Qed.

Lemma at_triangle_extends d c s j : extends s (snd (at_triangle d c s j)).
Proof.
  unfold at_triangle.
  apply (mutate_disturb_inv (fun _ s' => extends s s') d j 0 c s).
  - intros j' k y s' _ _ H.
    pose proof (disturb_vertex_cells d j' k y s') as (_ & _ & _ & _ & _ & _ & E).
    eapply extends_trans; eassumption.
  - intros j' y s' _ H.
    pose proof (disturb_color_cells d j' y s')
      as (_ & _ & _ & _ & _ & _ & _ & E).
    eapply extends_trans; eassumption.
  - apply extends_refl.
Qed.

Lemma at_vertex_extends d c s j k : extends s (snd (at_vertex d c s j k)).
Proof.
  unfold at_vertex.
  apply (disturb_triangle_inv (fun _ s' => extends s s'));
    [|apply at_triangle_extends].
  intros k' y s' _ H.
  pose proof (disturb_vertex_cells d j k' y s') as (_ & _ & _ & _ & _ & _ & E).
  eapply extends_trans; eassumption.
Qed.

(** C7. Disturb mutation does not clamp.  The inner iteration [(j, k)]
    starts from the coordinates of the genome passed in, the colour part of
    the outer iteration [j] from its colour.  When the perturbed value of a
    vertex coordinate or of an RGB channel is off bounds, what is stored is
    the value of the next draw of [U_RND], taken from the same stream; the
    perturbed value is discarded. *)
Theorem disturb_redraws (d : dbl) (c : Chromosome) (s : seed_t) (j k : nat) :
  j < N -> k < V ->
  let c' := fst (mutate_disturb d c s) in
  let st := at_vertex d c s j k in
  let pt := perturb_point d j k (fst st) (snd st) in
  let g0 := renew_point j k 0 (fst pt) (snd pt) in
  let sc := at_color d c s j in
  let pc := perturb_color d j (fst sc) (snd sc) in
  let h0 := renew_color j 0 (fst pc) (snd pc) in
  let h1 := renew_color j 1 (fst h0) (snd h0) in
  (forall i, point (fst st) j k i = point c j k i) /\
  (forall ch, color (fst sc) j ch = color c j ch) /\
  extends s (snd pt) /\ extends s (snd pc) /\
  (off_bounds (point (fst pt) j k 0) = true ->
     point c' j k 0 = fst (U_RND (snd pt))) /\
  (off_bounds (point (fst pt) j k 1) = true ->
     point c' j k 1 = fst (U_RND (snd g0))) /\
  (off_bounds (color (fst pc) j 0) = true ->
     color c' j 0 = fst (U_RND (snd pc))) /\
  (off_bounds (color (fst pc) j 1) = true ->
     color c' j 1 = fst (U_RND (snd h0))) /\
  (off_bounds (color (fst pc) j 2) = true ->
     color c' j 2 = fst (U_RND (snd h1))).
Proof.
  intros Hj Hk c' st pt g0 sc pc h0 h1.
  pose proof (disturb_vertex_cells d j k (fst st) (snd st)) as (P0 & P1 & _).
  pose proof (disturb_color_cells d j (fst sc) (snd sc)) as (C0 & C1 & C2 & _).
  pose proof (perturb_point_spec d j k (fst st) (snd st))
    as (_ & _ & _ & _ & _ & Ept).
  pose proof (perturb_color_spec d j (fst sc) (snd sc))
    as (_ & _ & _ & _ & _ & Epc).
  fold pt in P0, P1, Ept. fold g0 in P1. fold pc in C0, C1, C2, Epc.
  fold h0 in C1, C2. fold h1 in C2.
  subst c'.
  split; [intros i; apply at_vertex_original|].
  split; [intros ch; apply at_color_original|].
  split; [eapply extends_trans; [apply at_vertex_extends | exact Ept]|].
  split; [eapply extends_trans; [apply at_vertex_extends | exact Epc]|].
  split; [|split; [|split; [|split]]]; intros E.
  - rewrite stored_point by assumption. fold st. rewrite P0, E. reflexivity.
  - rewrite stored_point by assumption. fold st. rewrite P1, E. reflexivity.
  - rewrite stored_color by assumption. fold sc. rewrite C0, E. reflexivity.
  - rewrite stored_color by assumption. fold sc. rewrite C1, E. reflexivity.
  - rewrite stored_color by assumption. fold sc. rewrite C2, E. reflexivity.
Qed.

(** ** Fitness *)

Lemma wrap32_small z :
  (- 2147483648 <= z < 2147483648)%Z -> wrap 32 z = z.
Proof.
  intros H. unfold wrap.
  change (2 ^ (32 - 1))%Z with 2147483648%Z.
  change (2 ^ 32)%Z with 4294967296%Z.
  rewrite Z.mod_small; lia.
Qed.

Lemma wrap64_small z :
  (- 9223372036854775808 <= z < 9223372036854775808)%Z -> wrap 64 z = z.
Proof.
  intros H. unfold wrap.
  change (2 ^ (64 - 1))%Z with 9223372036854775808%Z.
  change (2 ^ 64)%Z with 18446744073709551616%Z.
  rewrite Z.mod_small; lia.
Qed.

(** On bytes the [int] arithmetic of one summand does not wrap. *)
Lemma byte_sq_diff a b :
  is_byte a -> is_byte b ->
  int_mul (int_sub a b) (int_sub a b) = ((a - b) * (a - b))%Z /\
  (0 <= (a - b) * (a - b) <= 65025)%Z.
Proof.
  unfold is_byte, int_mul, int_sub. intros Ha Hb.
  rewrite (wrap32_small (a - b)) by lia.
  assert (H : (0 <= (a - b) * (a - b) <= 65025)%Z).
  { assert (H0 : (0 <= (a - b) * (a - b))%Z) by apply Z.square_nonneg.
    assert (H1 : (0 <= (255 - (a - b)) * (255 + (a - b)))%Z)
      by (apply Z.mul_nonneg_nonneg; lia).
    lia. }
  split; [apply wrap32_small; lia | exact H].
Qed.

Lemma spec_score_nonneg win pix : (0 <= spec_score win pix)%Z.
Proof.
  unfold spec_score. revert pix.
  induction win as [|a win IH]; intros [|b pix]; cbn; try lia.
  specialize (IH pix). pose proof (Z.square_nonneg (a - b)). lia.
Qed.

Lemma spec_score_zero win pix :
  length win = length pix -> (spec_score win pix = 0%Z <-> win = pix).
Proof.
  unfold spec_score. revert pix.
  induction win as [|a win IH]; intros [|b pix] Hlen; cbn in *;
    try discriminate; [tauto|].
  injection Hlen as Hlen. specialize (IH pix Hlen).
  pose proof (spec_score_nonneg win pix) as Hnn. unfold spec_score in Hnn.
  split.
  - intros H.
    assert (Hsq : (0 <= (a - b) * (a - b))%Z) by apply Z.square_nonneg.
    assert (E : ((a - b) * (a - b) = 0)%Z) by lia.
    apply Z.mul_eq_0 in E. assert (a = b) by lia. subst b.
    f_equal. apply IH. lia.
  - intros H. injection H as -> <-.
    rewrite Z.sub_diag. cbn. apply IH. reflexivity.
Qed.

Lemma error_loop_shift n :
  forall i win pix fit,
  error_loop n i win pix fit = error_loop n 0 (drop i win) (drop i pix) fit.
Proof.
  induction n as [|n IH]; intros i win pix fit; [reflexivity|].
  cbn [error_loop]. rewrite (IH (i + 3)), (IH (0 + 3)).
  rewrite !drop_drop.
  replace (pixel_error (drop i win) (drop i pix) 0)
    with (pixel_error win pix i).
  - replace (i + (0 + 3)) with (i + 3) by lia. reflexivity.
  - unfold pixel_error, sq_diff. rewrite !lookup_total_drop.
    rewrite !Nat.add_0_r. reflexivity.
Qed.

(** The loop adds up the squared byte differences; [ll] does not wrap while
    the running sum stays below [2^63]. *)
Lemma error_loop_sum n :
  forall win pix fit,
  length win = 3 * n -> length pix = 3 * n ->
  Forall is_byte win -> Forall is_byte pix ->
  (0 <= fit)%Z ->
  (fit + 195075 * Z.of_nat n < 9223372036854775808)%Z ->
  error_loop n 0 win pix fit = (fit + spec_score win pix)%Z.
Proof.
  induction n as [|n IH]; intros win pix fit Hw Hp Bw Bp Hfit Hmax.
  - destruct win; [|discriminate]. cbn. lia.
  - destruct win as [|a0 [|a1 [|a2 win]]]; try (cbn in Hw; lia).
    destruct pix as [|p0 [|p1 [|p2 pix]]]; try (cbn in Hp; lia).
    inversion Bw as [|? ? A0 Bw1]; subst.
    inversion Bw1 as [|? ? A1 Bw2]; subst.
    inversion Bw2 as [|? ? A2 Bw3]; subst.
    inversion Bp as [|? ? P0 Bp1]; subst.
    inversion Bp1 as [|? ? P1 Bp2]; subst.
    inversion Bp2 as [|? ? P2 Bp3]; subst.
    destruct (byte_sq_diff a0 p0 A0 P0) as [E0 R0].
    destruct (byte_sq_diff a1 p1 A1 P1) as [E1 R1].
    destruct (byte_sq_diff a2 p2 A2 P2) as [E2 R2].
    cbn [error_loop]. rewrite error_loop_shift.
    assert (Hterm : pixel_error (a0 :: a1 :: a2 :: win)
                      (p0 :: p1 :: p2 :: pix) 0
                    = ((a0 - p0) * (a0 - p0) + (a1 - p1) * (a1 - p1)
                       + (a2 - p2) * (a2 - p2))%Z).
    { unfold pixel_error, sq_diff. cbn [lookup_total list_lookup_total Nat.add].
      rewrite E0, E1, E2. unfold int_add.
      rewrite (wrap32_small ((a0 - p0) * (a0 - p0) + (a1 - p1) * (a1 - p1)))
        by lia.
      apply wrap32_small. lia. }
    rewrite Hterm. unfold ll_add. rewrite wrap64_small by lia.
    cbn [drop Nat.add]. rewrite !drop_0.
    rewrite IH; try assumption; try (cbn in *; lia).
    unfold spec_score. cbn [zip_with foldr]. lia.
Qed.

(** C6. For a rendering and a target of the same dimensions, holding
    bytes, [fitness] returns the sum over all pixels of the squared
    differences of the three channels; the score is a non-negative integer
    and is 0 exactly when the rendering equals the target byte for byte. *)
Theorem fitness_sum_of_squares (render : Chromosome -> list Z)
    (input_width input_height : Z) (input_pixel : list Z) (c : Chromosome) :
  (0 <= input_width)%Z -> (0 <= input_height)%Z ->
  (input_width * input_height * 3 <= INT_MAX)%Z ->
  Z.of_nat (length (render c)) = (input_width * input_height * 3)%Z ->
  Z.of_nat (length input_pixel) = (input_width * input_height * 3)%Z ->
  Forall is_byte (render c) -> Forall is_byte input_pixel ->
  let score := fst (fitness render input_width input_height input_pixel c) in
  score = spec_score (render c) input_pixel /\
  (0 <= score)%Z /\
  (score = 0%Z <-> render c = input_pixel).
Proof.
  intros Hw Hh Hmax Lw Lp Bw Bp score.
  assert (Hwh : (0 <= input_width * input_height)%Z) by nia.
  assert (E : score = spec_score (render c) input_pixel).
  { subst score. unfold fitness. cbn [fst window set_window].
    unfold error_sum, int_mul, INT_MAX in *.
    rewrite (wrap32_small (input_width * input_height)) by lia.
    rewrite wrap32_small by lia.
    replace ((input_width * input_height * 3 + 2) / 3)%Z
      with (input_width * input_height)%Z
      by (apply Z.div_unique with (r := 2%Z); lia).
    rewrite error_loop_sum; try assumption; try lia. }
  split; [exact E|]. rewrite E. split; [apply spec_score_nonneg|].
  apply spec_score_zero. lia.
Qed.

(** ** The generation step *)

Lemma first_regen_value : first_regen = 7.
Proof. reflexivity. Qed.

Lemma insert_before_perm x l : insert_before x l ≡ₚ x :: l.
Proof.
  induction l as [|y l IH]; cbn [insert_before]; [reflexivity|].
  destruct (key y x); [|reflexivity].
  rewrite IH. apply Permutation_swap.
Qed.

Lemma insert_before_sorted x l :
  StronglySorted (fun a b => key b a = false) l ->
  StronglySorted (fun a b => key b a = false) (insert_before x l).
Proof.
  induction 1 as [|y l Hl IH Hy]; cbn [insert_before].
  - repeat constructor.
  - destruct (key y x) eqn:E.
    + constructor; [exact IH|].
      rewrite insert_before_perm. constructor; [|exact Hy].
      unfold key in *. apply Z.ltb_lt in E. apply Z.ltb_ge. lia.
    + constructor; [constructor; assumption|].
      constructor; [exact E|].
      eapply Forall_impl; [exact Hy|]. intros z Hz. cbn in Hz.
      unfold key in *. apply Z.ltb_ge in E, Hz. apply Z.ltb_ge. lia.
Qed.

Lemma tie_sort_sorts : sorts tie_sort.
Proof.
  assert (H : forall l acc,
            StronglySorted (fun a b => key b a = false) acc ->
            fold_left (fun acc x => insert_before x acc) l acc ≡ₚ l ++ acc /\
            StronglySorted (fun a b => key b a = false)
              (fold_left (fun acc x => insert_before x acc) l acc)).
  { induction l as [|x l IH]; intros acc Hacc; cbn [fold_left].
    - split; [reflexivity | exact Hacc].
    - destruct (IH (insert_before x acc) (insert_before_sorted x acc Hacc))
        as [Hp Hs].
      split; [|exact Hs]. rewrite Hp, insert_before_perm.
      cbn [app]. symmetry. apply Permutation_middle. }
  intros l. destruct (H l [] (SSorted_nil _)) as [Hp Hs].
  split; [|exact Hs]. unfold tie_sort. rewrite Hp, app_nil_r. reflexivity.
Qed.

Section Generation.

Variable render : Chromosome -> list Z.
Variables input_width input_height : Z.
Variable input_pixel : list Z.
Variable std_sort : list Chromosome -> list Chromosome.

Local Abbreviation evaluate' :=
  (evaluate render input_width input_height input_pixel).
Local Abbreviation regenerate' :=
  (regenerate render input_width input_height input_pixel).
Local Abbreviation gl_idle' :=
  (gl_idle render input_width input_height input_pixel std_sort).
Local Abbreviation generations' :=
  (generations render input_width input_height input_pixel std_sort).
Local Abbreviation main_init' :=
  (main_init render input_width input_height input_pixel std_sort).
Local Abbreviation run' :=
  (run render input_width input_height input_pixel std_sort).

Lemma evaluate_color c : color (evaluate' c) = color c.
Proof. reflexivity. Qed.

(** What [regenerate] stores in slot [i]: the evaluation of a genome [c]
    that an operator made without writing the slot's alpha. *)
Lemma regenerate_store i pop s :
  exists c, (forall t, color c t 3 = color (pop !!! i) t 3) /\
    fst (regenerate' i pop s) =
    <[i := evaluate' (<[i := c]> pop !!! i)]> (<[i := c]> pop).
Proof.
  unfold regenerate, bind, ret. cbn [fst snd].
  destruct (ltb (fst (U_RND s)) (Num (95 # 100))); cbn [fst snd].
  - destruct (ltb (fst (U_RND (snd (pick (snd (pick (snd (U_RND s))))))))
                 (Num (1 # 2))).
    + eexists. split; [|reflexivity]. apply one_point_co_frame.
    + eexists. split; [|reflexivity]. apply n_points_co_frame.
  - destruct (ltb (fst (U_RND (snd (U_RND s)))) (Num (95 # 100))).
    + eexists. split; [|reflexivity]. apply mutate_disturb_frame.
    + eexists. split; [|reflexivity]. apply mutate_change_frame.
Qed.

(** [regenerate] writes slot [i] only and keeps alpha. *)
Lemma regenerate_spec i pop s :
  length (fst (regenerate' i pop s)) = length pop /\
  (forall t, t <> i -> fst (regenerate' i pop s) !! t = pop !! t) /\
  (alpha_fixed pop -> alpha_fixed (fst (regenerate' i pop s))).
Proof.
  destruct (regenerate_store i pop s) as (c & Hc & ->).
  split; [rewrite !length_insert; reflexivity|]. split.
  - intros t Ht. rewrite !list_lookup_insert_ne by congruence. reflexivity.
  - intros Ha x Hx j Hj. apply list_elem_of_lookup in Hx as [t Ht].
    destruct (Nat.eq_dec t i) as [->|Hne].
    + assert (Hi : i < length pop).
      { apply lookup_lt_Some in Ht. rewrite !length_insert in Ht. exact Ht. }
      rewrite list_lookup_insert_eq in Ht by (rewrite length_insert; exact Hi).
      injection Ht as <-.
      rewrite list_lookup_total_insert_eq by exact Hi.
      rewrite evaluate_color, Hc. apply Ha; [|exact Hj].
      apply list_elem_of_lookup_total_2. exact Hi.
    + rewrite !list_lookup_insert_ne in Ht by congruence.
      apply (Ha x); [|exact Hj]. eapply list_elem_of_lookup_2. exact Ht.
Qed.

(** The loop of [gl_idle] over the slots from [lo] on. *)
Lemma regenerate_loop n lo pop s :
  length (fst (for_loop n lo regenerate' pop s)) = length pop /\
  (forall t, t < lo -> fst (for_loop n lo regenerate' pop s) !! t = pop !! t) /\
  (alpha_fixed pop -> alpha_fixed (fst (for_loop n lo regenerate' pop s))).
Proof.
  apply (hoare_for (fun i (x : list Chromosome) (_ : seed_t) =>
    length x = length pop /\
    (forall t, t < lo -> x !! t = pop !! t) /\
    (alpha_fixed pop -> alpha_fixed x)) regenerate' n lo pop).
  - intros i x Hi s' (Hl & Hk & Ha).
    destruct (regenerate_spec i x s') as (Hl' & Hk' & Ha').
    split; [congruence|]. split.
    + intros t Ht. rewrite Hk' by lia. apply Hk, Ht.
    + intros H. apply Ha', Ha, H.
  - repeat split; auto.
Qed.

(** One generation: the population keeps its size, the slots below
    [first_regen] hold what [std::sort] put there, alpha is kept. *)
Lemma gl_idle_spec pop s :
  length (fst (gl_idle' pop s)) = length (std_sort pop) /\
  (forall t, t < first_regen ->
     fst (gl_idle' pop s) !! t = std_sort pop !! t) /\
  (alpha_fixed (std_sort pop) -> alpha_fixed (fst (gl_idle' pop s))).
Proof. apply regenerate_loop. Qed.

(** *** The best fitness *)

Lemma foldr_min_le l z :
  (foldr (fun c m => Z.min (fit_val c) m) z l <= z)%Z /\
  (forall c, c ∈ l ->
     (foldr (fun c m => Z.min (fit_val c) m) z l <= fit_val c)%Z).
Proof.
  induction l as [|y l [IH1 IH2]]; cbn [foldr].
  - split; [lia|]. intros c H. inversion H.
  - split; [lia|]. intros c H. apply elem_of_cons in H as [->|H].
    + lia.
    + specialize (IH2 c H). lia.
Qed.

Lemma min_fit_le pop c : c ∈ pop -> (min_fit pop <= fit_val c)%Z.
Proof.
  destruct pop as [|c0 l]; [intros H; inversion H|].
  cbn [min_fit]. destruct (foldr_min_le l (fit_val c0)) as [H1 H2].
  intros H. apply elem_of_cons in H as [->|H]; [exact H1 | apply H2, H].
Qed.

Lemma min_fit_attained pop :
  pop <> [] -> exists c, c ∈ pop /\ fit_val c = min_fit pop.
Proof.
  destruct pop as [|c0 l]; [congruence|]. intros _.
  cbn [min_fit]. induction l as [|y l IH]; cbn [foldr].
  - exists c0. split; [constructor | reflexivity].
  - destruct IH as (c & Hc & E).
    destruct (Z.min_spec (fit_val y)
                (foldr (fun c m => Z.min (fit_val c) m) (fit_val c0) l))
      as [[_ ->]|[_ ->]].
    + exists y. split; [constructor; constructor | reflexivity].
    + exists c. split; [|exact E].
      apply elem_of_cons in Hc as [->|Hc];
        [constructor | do 2 constructor; assumption].
Qed.

Lemma StronglySorted_weaken {A} (R1 R2 : relation A) l :
  (forall x y, R1 x y -> R2 x y) ->
  StronglySorted R1 l -> StronglySorted R2 l.
Proof.
  intros H. induction 1 as [|x l Hl IH Hx]; constructor; [exact IH|].
  eapply Forall_impl; [exact Hx|]. intros y. apply H.
Qed.

Lemma ascending_head_least l c0 m :
  ascending l -> l !! 0 = Some c0 -> m ∈ l -> (fit_val c0 <= fit_val m)%Z.
Proof.
  intros Hs E Hm. destruct l as [|x l]; [discriminate|].
  injection E as ->. apply StronglySorted_inv in Hs as [_ Hhd].
  apply elem_of_cons in Hm as [->|Hm]; [lia|].
  rewrite Forall_forall in Hhd. apply Hhd, Hm.
Qed.

Hypothesis std_sort_contract : sorts std_sort.

Lemma std_sort_length pop : length (std_sort pop) = length pop.
Proof. apply Permutation_length, std_sort_contract. Qed.

Lemma std_sort_elem pop c : c ∈ std_sort pop <-> c ∈ pop.
Proof. destruct (std_sort_contract pop) as [H _]. rewrite H. reflexivity. Qed.

Lemma std_sort_ascending pop : ascending (std_sort pop).
Proof.
  destruct (std_sort_contract pop) as [_ H]. unfold ascending.
  eapply StronglySorted_weaken; [|exact H].
  intros a b Hk. unfold key in Hk. apply Z.ltb_ge in Hk. exact Hk.
Qed.

(** C3. One generation never raises the smallest cached fitness of the
    population: the minimum over all slots after [gl_idle] is at most the
    minimum before.  After sorting, slot 0 holds a genome of smallest cached
    fitness, and the loop of [gl_idle] starts above it. *)
Theorem best_fitness_never_increases (pop : list Chromosome) (s : seed_t) :
  length pop = POP_SIZE ->
  (min_fit (fst (gl_idle' pop s)) <= min_fit pop)%Z.
Proof.
  intros Hlen.
  destruct (gl_idle_spec pop s) as (_ & Hkeep & _).
  pose proof (std_sort_length pop) as Hl. rewrite Hlen in Hl.
  assert (H0 : is_Some (std_sort pop !! 0)).
  { apply lookup_lt_is_Some_2. rewrite Hl. unfold POP_SIZE. lia. }
  destruct H0 as [c0 E0].
  assert (Hc0 : c0 ∈ fst (gl_idle' pop s)).
  { eapply list_elem_of_lookup_2. rewrite (Hkeep 0); [exact E0|].
    rewrite first_regen_value. lia. }
  destruct (min_fit_attained pop) as (m & Hm & Em).
  { intros ->. discriminate. }
  pose proof (ascending_head_least _ _ m (std_sort_ascending pop) E0
                (proj2 (std_sort_elem pop m) Hm)).
  pose proof (min_fit_le _ _ Hc0). lia.
Qed.

(** *** Elitism *)

(** C4 (amended). For a population sorted ascending by cached fitness,
    after one generation every elite slot holds exactly what [std::sort]
    put there: a genome that was in the population before, unmodified, with
    the cached fitness the slot had before.  When no two different genomes
    share a cached fitness, it is the genome the slot held before. *)
Theorem elite_slots_preserved (pop : list Chromosome) (s : seed_t) (i : nat) :
  length pop = POP_SIZE -> ascending pop -> i < first_regen ->
  let pop' := fst (gl_idle' pop s) in
  pop' !! i = std_sort pop !! i /\
  fit_val (pop' !!! i) = fit_val (pop !!! i) /\
  pop' !!! i ∈ pop /\
  (no_ties pop -> pop' !!! i = pop !!! i).
Proof.
  intros Hlen Hasc Hi pop'.
  destruct (gl_idle_spec pop s) as (_ & Hkeep & _).
  specialize (Hkeep i Hi). fold pop' in Hkeep.
  pose proof (std_sort_length pop) as Hl.
  pose proof (std_sort_ascending pop) as Hs.
  destruct (std_sort_contract pop) as [Hperm _].
  assert (Hi' : i < length pop) by (rewrite Hlen, first_regen_value in *; unfold POP_SIZE; lia).
  assert (Etot : pop' !!! i = std_sort pop !!! i).
  { rewrite !list_lookup_total_alt, Hkeep. reflexivity. }
  assert (Efit : fit_val <$> std_sort pop = fit_val <$> pop).
  { apply (StronglySorted_unique_strong Z.le).
    - intros; lia.
    - eapply StronglySorted_fmap; [|exact Hs]. auto.
    - eapply StronglySorted_fmap; [|exact Hasc]. auto.
    - rewrite Hperm. reflexivity. }
  split; [exact Hkeep|]. rewrite Etot. split; [|split].
  - assert (E : (fit_val <$> std_sort pop) !!! i = (fit_val <$> pop) !!! i)
      by (rewrite Efit; reflexivity).
    rewrite (list_lookup_total_fmap fit_val (std_sort pop) i) in E by lia.
    rewrite (list_lookup_total_fmap fit_val pop i) in E by lia. exact E.
  - apply std_sort_elem. apply list_elem_of_lookup_total_2. lia.
  - intros Hnt. f_equal.
    apply (StronglySorted_unique_strong
             (fun a b => (fit_val a <= fit_val b)%Z)); try assumption.
    intros x1 x2 H1 H2 H12 H21. apply Hnt; [apply std_sort_elem, H1 | exact H2 | lia].
Qed.

(** *** Alpha *)

Lemma gen_vertices_color j c n lo s :
  color (fst (for_loop n lo (fun k c =>
                let* x := U_RND in let c := set_point c j k 0 x in
                let* y := U_RND in ret (set_point c j k 1 y)) c s))
  = color c.
Proof.
  apply (hoare_for (fun _ (x : Chromosome) (_ : seed_t) => color x = color c));
    [|reflexivity].
  intros k x _ s' Hx. exact Hx.
Qed.

(** [gen_triangle] sets alpha of triangle [j] and of no other triangle. *)
Lemma gen_triangle_alpha j c s t :
  color (fst (gen_triangle j c s)) t 3 =
  if t =? j then OPACITY else color c t 3.
Proof.
  unfold gen_triangle.
  pose proof (gen_vertices_color j c V 0 s) as Hv.
  set (L := for_loop V 0 _ c) in *.
  unfold bind, ret. cbn [fst snd color set_color]. rewrite Hv.
  destruct (Nat.eqb_spec t j); reflexivity.
Qed.

Lemma gen_member_alpha c s j :
  j < N -> color (fst (for_loop N 0 gen_triangle c s)) j 3 = OPACITY.
Proof.
  revert j.
  apply (hoare_for (fun n (x : Chromosome) (_ : seed_t) =>
           forall j, j < n -> color x j 3 = OPACITY) gen_triangle N 0 c).
  - intros i x _ s' Hx j Hj. rewrite gen_triangle_alpha.
    destruct (Nat.eqb_spec j i); [reflexivity|]. apply Hx. lia.
  - intros j Hj. lia.
Qed.

Lemma gen_pop_alpha pop s :
  length pop = POP_SIZE ->
  length (fst (gen_pop pop s)) = POP_SIZE /\ alpha_fixed (fst (gen_pop pop s)).
Proof.
  intros Hlen.
  assert (H : length (fst (gen_pop pop s)) = POP_SIZE /\
              forall t, t < 0 + POP_SIZE -> forall j, j < N ->
                color (fst (gen_pop pop s) !!! t) j 3 = OPACITY).
  { unfold gen_pop.
    apply (hoare_for (fun n (x : list Chromosome) (_ : seed_t) =>
             length x = POP_SIZE /\
             forall t, t < n -> forall j, j < N ->
               color (x !!! t) j 3 = OPACITY)).
    - intros i x Hi s' [Hl Hx]. unfold bind, ret. cbn [fst snd].
      split; [rewrite length_insert; exact Hl|].
      intros t Ht j Hj. destruct (Nat.eq_dec t i) as [->|Hne].
      + rewrite list_lookup_total_insert_eq by lia.
        apply gen_member_alpha, Hj.
      + rewrite list_lookup_total_insert_ne by congruence.
        apply Hx; [lia | exact Hj].
    - split; [exact Hlen|]. intros t Ht. lia. }
  destruct H as [Hl Ha]. split; [exact Hl|].
  intros c Hc j Hj. apply list_elem_of_lookup_total_1 in Hc as (t & Ht & <-).
  apply Ha; [lia | exact Hj].
Qed.

Lemma main_init_alpha s : alpha_fixed (fst (main_init' s)).
Proof.
  unfold main_init, bind, ret. cbn [fst snd].
  intros c Hc j Hj. apply (proj1 (std_sort_elem _ _)) in Hc.
  apply list_elem_of_fmap in Hc as (x & -> & Hx).
  rewrite evaluate_color.
  destruct (gen_pop_alpha (replicate POP_SIZE Chromosome_new) s) as [_ Ha].
  - apply length_replicate.
  - apply (Ha x Hx j Hj).
Qed.

Lemma gl_idle_alpha pop s :
  alpha_fixed pop -> alpha_fixed (fst (gl_idle' pop s)).
Proof.
  intros Ha. destruct (gl_idle_spec pop s) as (_ & _ & H). apply H.
  intros c Hc. apply Ha. apply (proj1 (std_sort_elem _ _)), Hc.
Qed.

Lemma generations_alpha n :
  forall pop s, alpha_fixed pop -> alpha_fixed (fst (generations' n pop s)).
Proof.
  induction n as [|n IH]; intros pop s Ha; cbn [generations].
  - exact Ha.
  - unfold bind. apply IH, gl_idle_alpha, Ha.
Qed.

(** C8. Once [gen_pop] has set it, alpha of every triangle of every
    member of the population is [OPACITY] after any number of generations;
    neither crossover operator and neither mutation operator writes the
    alpha of a triangle. *)
Theorem alpha_is_constant (n : nat) (s : seed_t) :
  alpha_fixed (fst (run' n s)) /\
  (forall a b c s' t,
     color (fst (one_point_co a b c s')) t 3 = color c t 3 /\
     color (fst (n_points_co a b c s')) t 3 = color c t 3) /\
  (forall d c s' t,
     color (fst (mutate_disturb d c s')) t 3 = color c t 3 /\
     color (fst (mutate_change c s')) t 3 = color c t 3).
Proof.
  split; [|split].
  - unfold run. unfold bind. apply generations_alpha, main_init_alpha.
  - intros a b c s' t. split.
    + apply one_point_co_frame.
    + apply n_points_co_frame.
  - intros d c s' t. split.
    + apply mutate_disturb_frame.
    + apply mutate_change_frame.
Qed.

End Generation.

(** ** The intensity of disturb mutation *)

Lemma intensity_value s :
  fst (intensity s) =
  Num (500 * (2 * inject_Z (draws s (pos s)) / inject_Z RAND_MAX + - (1))).
Proof. reflexivity. Qed.

(** With a zero divisor every perturbation is infinite: [div] is not
    guarded in [mutate_disturb]. *)
Lemma perturbation_by_zero s :
  exists sg, div (fst (RND s)) (Num 0) = Infty sg.
Proof.
  rewrite RND_value. cbn [div].
  replace (is_zero 0) with true by reflexivity.
  pose proof (RND_nonzero (draws s (pos s))) as H.
  apply is_zero_false in H. rewrite H. eauto.
Qed.

(** Refutation of C10 as stated: no stream of draws makes the intensity
    that [gl_idle] passes to [mutate_disturb] zero. *)
Lemma intensity_zero_unreachable :
  ~ exists s, ok s /\ zero_divisor (fst (intensity s)) = true.
Proof.
  intros (s & _ & H). rewrite intensity_value in H. cbn [zero_divisor] in H.
  apply Qeq_bool_iff in H.
  apply (RND_nonzero (draws s (pos s))).
  apply (Qmult_integral_l 500); [discriminate | exact H].
Qed.

(** C10 (amended). The intensity is 500 times a draw from [-1,1]: a number
    in [-500, 500], by which [mutate_disturb] divides without a guard.  No
    stream of draws makes it zero, [RAND_MAX] being odd, so the
    division-by-zero branch is not reached from [gl_idle]. *)
Theorem intensity_is_never_zero (s : seed_t) :
  ok s ->
  exists q,
    fst (intensity s) = Num q /\
    zero_divisor (fst (intensity s)) = false /\
    (- (500) <= q /\ q <= 500)%Q.
Proof.
  intros Hok. specialize (Hok (pos s)).
  set (r := draws s (pos s)) in *.
  exists (500 * (2 * inject_Z r / inject_Z RAND_MAX + - (1)))%Q.
  split; [apply intensity_value|]. split.
  - rewrite intensity_value. cbn [zero_divisor]. apply is_zero_false.
    intros H. apply (RND_nonzero r).
    apply (Qmult_integral_l 500); [discriminate | exact H].
  - revert Hok.
    unfold Qle, Qdiv, Qmult, Qplus, Qinv, Qopp, inject_Z, RAND_MAX.
    cbn [Qnum Qden]. intros Hok. split; lia.
Qed.

(** ** The coin of uniform crossover *)

(** C1, evaluated.  Parent A is all 0, parent B all 1, and the coins of the
    three vertices of triangle 0 fall A, B, A: the child's triangle 0 takes
    vertex 1 from B and the rest from A, and is neither parent's. *)
Theorem n_points_co_mixes_parents :
  let a := flat (Num 0) in
  let b := flat (Num 1) in
  let c' := fst (n_points_co a b Chromosome_new (script [0; RAND_MAX; 0]%Z)) in
  point c' 0 0 0 = point a 0 0 0 /\
  point c' 0 1 0 = point b 0 1 0 /\
  point c' 0 2 0 = point a 0 2 0 /\
  color c' 0 0 = color a 0 0 /\
  ~ same_triangle c' a 0 /\ ~ same_triangle c' b 0.
Proof.
  intros a b c'.
  assert (H0 : point c' 0 0 0 = Num 0) by (vm_compute; reflexivity).
  assert (H1 : point c' 0 1 0 = Num 1) by (vm_compute; reflexivity).
  assert (H2 : point c' 0 2 0 = Num 0) by (vm_compute; reflexivity).
  assert (H3 : color c' 0 0 = Num 0) by (vm_compute; reflexivity).
  split; [exact H0|]. split; [exact H1|]. split; [exact H2|].
  split; [exact H3|]. split.
  - intros [Hp _]. specialize (Hp 1 0 ltac:(unfold V; lia) ltac:(lia)).
    rewrite H1 in Hp. discriminate.
  - intros [Hp _]. specialize (Hp 0 0 ltac:(unfold V; lia) ltac:(lia)).
    rewrite H0 in Hp. discriminate.
Qed.

(** ** Examples *)

Lemma ok_zero_seed : ok zero_seed.
Proof. intros n. cbn. unfold RAND_MAX. lia. Qed.

Lemma bounded_flat q : (0 <= q)%Q -> (q <= 1)%Q -> bounded (flat (Num q)).
Proof.
  intros H0 H1. split.
  - intros i j k _ _ _. cbn. split; assumption.
  - intros i ch _ _. cbn. destruct (ch =? 3); cbn; [|split; assumption].
    split; unfold Qle; cbn; lia.
Qed.

Lemma ascending_tied_pop : ascending tied_pop.
Proof.
  assert (H : forall l, Forall (fun x => fit_val x = 0%Z) l -> ascending l).
  { induction 1 as [|x l Hx Hl IH]; constructor; [exact IH|].
    eapply Forall_impl; [exact Hl|]. intros y Hy. cbn in *. lia. }
  apply H. constructor; [reflexivity|].
  apply Forall_forall. intros x Hx.
  apply elem_of_replicate_inv in Hx as ->. reflexivity.
Qed.

(** Refutation of C4 as stated.  [tied_pop] is sorted ascending and its
    members share one cached fitness; a sort that meets the contract of
    [std::sort] moves the first genome away, so after the generation the
    elite slot 0 holds a genome with another first vertex. *)
Lemma elite_slot_changes_on_ties :
  sorts tie_sort /\ length tied_pop = POP_SIZE /\ ascending tied_pop /\
  0 < first_regen /\
  point (fst (gl_idle (fun _ => []) 0 0 [] tie_sort tied_pop zero_seed) !!! 0)
        0 0 0
  <> point (tied_pop !!! 0) 0 0 0.
Proof.
  split; [exact tie_sort_sorts|]. split; [reflexivity|].
  split; [exact ascending_tied_pop|].
  split; [rewrite first_regen_value; lia|].
  destruct (gl_idle_spec (fun _ => []) 0 0 [] tie_sort tied_pop zero_seed)
    as (_ & Hkeep & _).
  specialize (Hkeep 0 ltac:(rewrite first_regen_value; lia)).
  rewrite list_lookup_total_alt, Hkeep.
  assert (E : tie_sort tied_pop !! 0 = Some (flat (Num 0)))
    by (vm_compute; reflexivity).
  rewrite E. cbn. discriminate.
Qed.

Lemma one_point_co_correct_witness :
  ok zero_seed /\
  forall i, i < N ->
    same_triangle
      (fst (one_point_co (flat (Num 0)) (flat (Num 1)) Chromosome_new zero_seed))
      (flat (Num 1)) i.
Proof.
  split; [exact ok_zero_seed|].
  pose proof (one_point_co_correct (flat (Num 0)) (flat (Num 1))
                Chromosome_new zero_seed ok_zero_seed)
    as (_ & _ & _ & _ & _ & H0 & _).
  apply H0. vm_compute. reflexivity.
Defined.

Lemma crossover_self_pairing_witness :
  0 < N /\
  same_triangle
    (fst (one_point_co (flat (Num 1)) (flat (Num 1)) Chromosome_new zero_seed))
    (flat (Num 1)) 0 /\
  same_triangle
    (fst (n_points_co (flat (Num 1)) (flat (Num 1)) Chromosome_new zero_seed))
    (flat (Num 1)) 0.
Proof.
  assert (H : 0 < N) by (unfold N; lia).
  split; [exact H|].
  exact (crossover_self_pairing (flat (Num 1)) Chromosome_new zero_seed 0 H).
Defined.

Lemma mutation_bounded_witness :
  bounded (flat (Num (1 # 2))) /\ ok zero_seed /\ Num 500 <> NaN /\
  bounded (fst (mutate_disturb (Num 500) (flat (Num (1 # 2))) zero_seed)) /\
  bounded (fst (mutate_change (flat (Num (1 # 2))) zero_seed)).
Proof.
  assert (Hb : bounded (flat (Num (1 # 2))))
    by (apply bounded_flat; unfold Qle; cbn; lia).
  assert (Hd : Num 500 <> NaN) by discriminate.
  split; [exact Hb|]. split; [exact ok_zero_seed|]. split; [exact Hd|].
  exact (mutation_bounded _ _ _ Hb ok_zero_seed Hd).
Defined.

Lemma best_fitness_never_increases_witness :
  sorts tie_sort /\ length tied_pop = POP_SIZE /\
  (min_fit (fst (gl_idle (fun _ => []) 0 0 [] tie_sort tied_pop zero_seed))
   <= min_fit tied_pop)%Z.
Proof.
  split; [exact tie_sort_sorts|]. split; [reflexivity|].
  exact (best_fitness_never_increases (fun _ => []) 0 0 [] tie_sort
           tie_sort_sorts tied_pop zero_seed eq_refl).
Defined.

Lemma elite_slots_preserved_witness :
  sorts tie_sort /\ length tied_pop = POP_SIZE /\ ascending tied_pop /\
  0 < first_regen /\
  fit_val (fst (gl_idle (fun _ => []) 0 0 [] tie_sort tied_pop zero_seed) !!! 0)
  = fit_val (tied_pop !!! 0).
Proof.
  assert (Hi : 0 < first_regen) by (rewrite first_regen_value; lia).
  split; [exact tie_sort_sorts|]. split; [reflexivity|].
  split; [exact ascending_tied_pop|]. split; [exact Hi|].
  exact (proj1 (proj2 (elite_slots_preserved (fun _ => []) 0 0 [] tie_sort
           tie_sort_sorts tied_pop zero_seed 0 eq_refl ascending_tied_pop Hi))).
Defined.

Lemma alpha_is_constant_witness :
  sorts tie_sort /\
  alpha_fixed (fst (run (fun _ => []) 0 0 [] tie_sort 3 zero_seed)).
Proof.
  split; [exact tie_sort_sorts|].
  exact (proj1 (alpha_is_constant (fun _ => []) 0 0 [] tie_sort
                  tie_sort_sorts 3 zero_seed)).
Defined.

Lemma intensity_is_never_zero_witness :
  ok zero_seed /\ zero_divisor (fst (intensity zero_seed)) = false.
Proof.
  split; [exact ok_zero_seed|].
  destruct (intensity_is_never_zero zero_seed ok_zero_seed)
    as (q & _ & H & _).
  exact H.
Defined.

(** Vertex 0 of triangle 0 is at 1; the first coin perturbs it, [RND] is 1
    and the intensity 1, so the perturbed coordinate is 2.  A clamp would
    store 1; the code stores the next draw. *)
Lemma disturb_redraws_witness :
  0 < N /\ 0 < V /\
  point (fst (mutate_disturb (Num 1) (flat (Num 1))
                (script [0; RAND_MAX; RAND_MAX; 1073741823]%Z))) 0 0 0
  = Num (1073741823 # 2147483647).
Proof.
  assert (HN : 0 < N) by (unfold N; lia).
  assert (HV : 0 < V) by (unfold V; lia).
  split; [exact HN|]. split; [exact HV|].
  destruct (disturb_redraws (Num 1) (flat (Num 1))
              (script [0; RAND_MAX; RAND_MAX; 1073741823]%Z) 0 0 HN HV)
    as (_ & _ & _ & _ & P0 & _).
  rewrite P0; vm_compute; reflexivity.
Defined.

Lemma fitness_sum_of_squares_witness :
  fst (fitness (fun _ => [10; 20; 30]%Z) 1 1 [10; 22; 27]%Z Chromosome_new)
  = 13%Z.
Proof.
  assert (B1 : Forall is_byte [10; 20; 30]%Z)
    by (repeat constructor; unfold is_byte; lia).
  assert (B2 : Forall is_byte [10; 22; 27]%Z)
    by (repeat constructor; unfold is_byte; lia).
  destruct (fitness_sum_of_squares (fun _ => [10; 20; 30]%Z) 1 1
              [10; 22; 27]%Z Chromosome_new
              ltac:(lia) ltac:(lia) ltac:(unfold INT_MAX; lia)
              eq_refl eq_refl B1 B2) as (E & _).
  rewrite E. reflexivity.
Defined.

(** * Further properties of the code *)

(** ** The comparison and the random macros *)

(** X1. [Chromosome::key] is a strict weak ordering, as [std::sort] requires
    of its comparison: irreflexive, transitive, and with a transitive
    incomparability. *)
Theorem key_strict_weak_order :
  (forall a, key a a = false) /\
  (forall a b c, key a b = true -> key b c = true -> key a c = true) /\
  (forall a b c,
     key a b = false -> key b a = false ->
     key b c = false -> key c b = false ->
     key a c = false /\ key c a = false).
Proof.
  unfold key. split; [|split].
  - intros a. apply Z.ltb_irrefl.
  - intros a b c H1 H2. apply Z.ltb_lt in H1, H2. apply Z.ltb_lt. lia.
  - intros a b c H1 H2 H3 H4. apply Z.ltb_ge in H1, H2, H3, H4.
    split; apply Z.ltb_ge; lia.
Qed.

Lemma advanced_trans n m s1 s2 s3 :
  advanced n s1 s2 -> advanced m s2 s3 -> advanced (n + m) s1 s3.
Proof. intros [E1 P1] [E2 P2]. split; [congruence | lia]. Qed.

Lemma advanced_extends n s s' : advanced n s s' -> extends s s'.
Proof. intros [E P]. split; [exact E | lia]. Qed.

Lemma advanced_U_RND s : advanced 1 s (snd (U_RND s)).
Proof. split; cbn; [reflexivity | lia]. Qed.

Lemma advanced_RND s : advanced 1 s (snd (RND s)).
Proof. split; cbn; [reflexivity | lia]. Qed.

(** X2. On a stream of draws in [0, RAND_MAX], [U_RND] is a finite value in
    [0,1] and [RND] a finite value in [-1,1] that is not zero; each macro
    consumes exactly one draw. *)
Theorem macros_range (s : seed_t) :
  ok s ->
  in_unit (fst (U_RND s)) /\ advanced 1 s (snd (U_RND s)) /\
  (exists q, fst (RND s) = Num q /\ (- (1) <= q)%Q /\ (q <= 1)%Q /\ ~ (q == 0)%Q) /\
  advanced 1 s (snd (RND s)).
Proof.
  intros Hok. split; [apply U_RND_unit, Hok|].
  split; [apply advanced_U_RND|]. split; [|apply advanced_RND].
  exists (2 * inject_Z (draws s (pos s)) / inject_Z RAND_MAX + - (1))%Q.
  split; [apply RND_value|].
  specialize (Hok (pos s)). revert Hok.
  generalize (draws s (pos s)). intros r Hr.
  split; [|split].
  - revert Hr.
    unfold Qle, Qdiv, Qmult, Qplus, Qinv, Qopp, inject_Z, RAND_MAX.
    cbn [Qnum Qden]. lia.
  - revert Hr.
    unfold Qle, Qdiv, Qmult, Qplus, Qinv, Qopp, inject_Z, RAND_MAX.
    cbn [Qnum Qden]. lia.
  - apply RND_nonzero.
Qed.

(** ** The choice of the parents *)

Lemma pick_spec s :
  ok s ->
  fst (pick s) < POP_SIZE /\
  (draws s (pos s) = RAND_MAX -> fst (pick s) = 0).
Proof.
  intros Hok. destruct (quotient_unit _ (Hok (pos s))) as [H0 H1].
  unfold pick, bind, ret. cbn [fst snd]. rewrite U_RND_value.
  set (u := (inject_Z (draws s (pos s)) / inject_Z RAND_MAX)%Q) in *.
  change (of_int (Z.of_nat POP_SIZE))
    with (Num (inject_Z (Z.of_nat POP_SIZE))).
  cbn [mul round].
  assert (Hn : is_neg (u * inject_Z (Z.of_nat POP_SIZE)) = false).
  { unfold is_neg. apply negb_false_iff, Qle_bool_iff.
    apply Qmult_le_0_compat; [exact H0 | unfold Qle; cbn; lia]. }
  rewrite Hn.
  set (z := Qfloor (u * inject_Z (Z.of_nat POP_SIZE) + (1 # 2))).
  assert (Hz : (0 <= z <= 30)%Z).
  { subst z. split.
    - rewrite <- (Qfloor_Z 0). apply Qfloor_resp_le.
      change (inject_Z 0) with (0 + 0)%Q. apply Qplus_le_compat.
      + apply Qmult_le_0_compat; [exact H0 | unfold Qle; cbn; lia].
      + unfold Qle; cbn; lia.
    - assert (Hle : (u * inject_Z (Z.of_nat POP_SIZE) + (1 # 2)
                     <= inject_Z 30 + (1 # 2))%Q).
      { apply Qplus_le_compat; [|apply Qle_refl].
        rewrite <- (Qmult_1_l (inject_Z 30)).
        apply Qmult_le_compat_r; [exact H1 | unfold Qle; cbn; lia]. }
      apply Qfloor_resp_le in Hle.
      assert (E : Qfloor (inject_Z 30 + (1 # 2)) = 30%Z) by reflexivity.
      rewrite E in Hle. exact Hle. }
  rewrite to_int_of_int by (unfold INT_MIN, INT_MAX; lia).
  assert (Hp : Z.of_nat POP_SIZE = 30%Z) by reflexivity. rewrite Hp.
  split.
  - pose proof (Z.rem_bound_pos z 30 ltac:(lia) ltac:(lia)).
    unfold POP_SIZE. lia.
  - intros E. subst z u. rewrite E. reflexivity.
Qed.

(** X3. The index [((int) round(U_RND * POP_SIZE)) % POP_SIZE] that [gl_idle]
    uses for a parent lies inside the population array; the draw
    [RAND_MAX], for which the rounded product is [POP_SIZE], wraps to
    slot 0. *)
Theorem pick_in_range (s : seed_t) :
  ok s ->
  fst (pick s) < POP_SIZE /\
  (draws s (pos s) = RAND_MAX -> fst (pick s) = 0).
Proof. exact (pick_spec s). Qed.

(** ** Crossover, draw by draw *)

Lemma n_points_body a b i j z s :
  (let* u := U_RND in
   if ltb u (Num (1 # 2))
   then ret (copy_color a (copy_point a z i j) i)
   else ret (copy_color b (copy_point b z i j) i)) s
  = (copy_color (donor a b s (pos s)) (copy_point (donor a b s (pos s)) z i j) i,
     snd (U_RND s)).
Proof.
  unfold bind, ret, donor, uval. rewrite U_RND_value.
  destruct (ltb _ (Num (1 # 2))); reflexivity.
Qed.

Lemma donor_same_stream a b s s' n :
  draws s' = draws s -> donor a b s' n = donor a b s n.
Proof. intros E. unfold donor, uval. rewrite E. reflexivity. Qed.

(** The coin of vertex [j] of triangle [i] is draw number [V * i + j] of the
    call; it selects the donor of that vertex, and the coin of the last
    vertex also selects the donor of the colour. *)
Lemma n_points_co_exact a b c s :
  (forall i j k, i < N -> j < V -> k < 2 ->
     point (fst (n_points_co a b c s)) i j k =
     point (donor a b s (pos s + (V * i + j))) i j k) /\
  (forall i ch, i < N -> ch < 3 ->
     color (fst (n_points_co a b c s)) i ch =
     color (donor a b s (pos s + (V * i + (V - 1)))) i ch) /\
  advanced (V * N) s (snd (n_points_co a b c s)).
Proof.
  set (Inv := fun n (x : Chromosome) (s' : seed_t) =>
    advanced (V * n) s s' /\
    (forall i j k, i < n -> j < V -> k < 2 ->
       point x i j k = point (donor a b s (pos s + (V * i + j))) i j k) /\
    (forall i ch, i < n -> ch < 3 ->
       color x i ch = color (donor a b s (pos s + (V * i + (V - 1)))) i ch)).
  assert (H : hoare (Inv 0 c) (n_points_co a b c) (Inv (0 + N))).
  { unfold n_points_co. apply (hoare_for Inv). intros i y _.
    set (Inn := fun m (x : Chromosome) (s' : seed_t) =>
      advanced (V * i + m) s s' /\
      (forall i' j k, i' < i -> j < V -> k < 2 ->
         point x i' j k = point (donor a b s (pos s + (V * i' + j))) i' j k) /\
      (forall i' ch, i' < i -> ch < 3 ->
         color x i' ch =
         color (donor a b s (pos s + (V * i' + (V - 1)))) i' ch) /\
      (forall j k, j < m -> k < 2 ->
         point x i j k = point (donor a b s (pos s + (V * i + j))) i j k) /\
      (0 < m -> forall ch, ch < 3 ->
         color x i ch = color (donor a b s (pos s + (V * i + (m - 1)))) i ch)).
    eapply hoare_conseq; [apply (hoare_for Inn) with (lo := 0) | |].
    - intros j z _ s' (Hadv & Hp & Hc & Hcur & Hcc).
      rewrite n_points_body. cbn [fst snd].
      destruct Hadv as [Ed Ep].
      rewrite (donor_same_stream a b s s' _ Ed), Ep.
      set (d := donor a b s (pos s + (V * i + j))).
      destruct (copy_vertex_cells d z i j) as [Hpt Hcl].
      unfold Inn. split; [|split; [|split; [|split]]].
      + split; cbn; [exact Ed | unfold V in *; lia].
      + intros i' j' k Hi' Hj' Hk. rewrite Hpt.
        destruct (Nat.eqb_spec i' i); [lia|]. apply Hp; assumption.
      + intros i' ch Hi' Hch. rewrite Hcl.
        destruct (Nat.eqb_spec i' i); [lia|]. apply Hc; assumption.
      + intros j' k Hj' Hk. rewrite Hpt, Nat.eqb_refl.
        destruct (Nat.eqb_spec j' j) as [->|Hne].
        * rewrite (proj2 (Nat.ltb_lt k 2) Hk). reflexivity.
        * cbn [andb]. apply Hcur; [lia | exact Hk].
      + intros _ ch Hch. rewrite Hcl, Nat.eqb_refl.
        rewrite (proj2 (Nat.ltb_lt ch 3) Hch). cbn [andb].
        replace (S j - 1) with j by lia. reflexivity.
    - intros s' (Hadv & Hp & Hc). unfold Inn.
      split; [rewrite Nat.add_0_r; exact Hadv|].
      split; [exact Hp|]. split; [exact Hc|].
      split; intros; lia.
    - intros x s' (Hadv & Hp & Hc & Hcur & Hcc). unfold Inv.
      split; [|split].
      + replace (V * S i) with (V * i + (0 + V)) by (unfold V; lia).
        exact Hadv.
      + intros i' j k Hi' Hj Hk. destruct (Nat.eq_dec i' i) as [->|].
        * apply Hcur; assumption.
        * apply Hp; [lia | assumption..].
      + intros i' ch Hi' Hch. destruct (Nat.eq_dec i' i) as [->|].
        * apply Hcc; [unfold V; lia | exact Hch].
        * apply Hc; [lia | exact Hch]. }
  specialize (H s). destruct H as (Hadv & Hp & Hc).
  { unfold Inv. split; [split; [reflexivity | lia]|].
    split; intros; lia. }
  split; [exact Hp|]. split; [exact Hc | exact Hadv].
Qed.

(** X4. Uniform crossover decides every vertex by its own coin: vertex [j]
    of triangle [i] of the child is that vertex of the parent selected by
    draw number [V * i + j] of the call, and the RGB colour of triangle [i]
    is the colour of the parent selected by the coin of its last vertex. *)
Theorem n_points_co_by_vertex (a b c : Chromosome) (s : seed_t) (i : nat) :
  i < N ->
  let c' := fst (n_points_co a b c s) in
  (forall j k, j < V -> k < 2 ->
     point c' i j k = point (donor a b s (pos s + (V * i + j))) i j k) /\
  (forall ch, ch < 3 ->
     color c' i ch = color (donor a b s (pos s + (V * i + (V - 1)))) i ch).
Proof.
  intros Hi c'. destruct (n_points_co_exact a b c s) as (Hp & Hc & _).
  split.
  - intros j k Hj Hk. apply Hp; assumption.
  - intros ch Hch. apply Hc; assumption.
Qed.

(** X5. The number of draws a crossover consumes does not depend on their
    values: [one_point_co] takes exactly one, [n_points_co] exactly
    [N * V]. *)
Theorem crossover_draws (a b c : Chromosome) (s : seed_t) :
  advanced 1 s (snd (one_point_co a b c s)) /\
  advanced (N * V) s (snd (n_points_co a b c s)).
Proof.
  split.
  - change (snd (one_point_co a b c s)) with (snd (U_RND s)).
    apply advanced_U_RND.
  - destruct (n_points_co_exact a b c s) as (_ & _ & H).
    rewrite Nat.mul_comm. exact H.
Qed.

(** X6. A crossover overwrites the vertices and the RGB colour of all [N]
    triangles of the child slot: what it leaves there does not depend on what
    the slot held before. *)
Theorem crossover_overwrites (a b c1 c2 : Chromosome) (s : seed_t) (i : nat) :
  i < N ->
  same_triangle (fst (one_point_co a b c1 s)) (fst (one_point_co a b c2 s)) i /\
  same_triangle (fst (n_points_co a b c1 s)) (fst (n_points_co a b c2 s)) i.
Proof.
  intros Hi. split.
  - change (fst (one_point_co a b c1 s))
      with (one_point_copy (fst (cut_point s)) a b c1).
    change (fst (one_point_co a b c2 s))
      with (one_point_copy (fst (cut_point s)) a b c2).
    destruct (one_point_copy_triangle (fst (cut_point s)) a b c1 i Hi)
      as [P1 C1].
    destruct (one_point_copy_triangle (fst (cut_point s)) a b c2 i Hi)
      as [P2 C2].
    split.
    + intros j k Hj Hk. rewrite P1, P2 by assumption. reflexivity.
    + intros ch Hch. rewrite C1, C2 by assumption. reflexivity.
  - destruct (n_points_co_exact a b c1 s) as (P1 & C1 & _).
    destruct (n_points_co_exact a b c2 s) as (P2 & C2 & _).
    split.
    + intros j k Hj Hk. rewrite P1, P2 by assumption. reflexivity.
    + intros ch Hch. rewrite C1, C2 by assumption. reflexivity.
Qed.

Lemma one_point_co_bounded a b c s :
  bounded a -> bounded b ->
  (forall i, i < N -> in_unit (color c i 3)) ->
  bounded (fst (one_point_co a b c s)).
Proof.
  intros [Pa Ca] [Pb Cb] Hc.
  change (fst (one_point_co a b c s))
    with (one_point_copy (fst (cut_point s)) a b c).
  destruct (one_point_copy_cells (fst (cut_point s)) a b c)
    as (Hp & Hcol & _).
  split.
  - intros i j k Hi Hj Hk. rewrite Hp.
    apply Nat.ltb_lt in Hi as Hi', Hj as Hj', Hk as Hk'.
    rewrite Hi', Hj', Hk'. cbn [andb].
    destruct (Z.of_nat i <? fst (cut_point s))%Z; auto.
  - intros i ch Hi Hch. rewrite Hcol.
    apply Nat.ltb_lt in Hi as Hi'. rewrite Hi'. cbn [andb].
    destruct (Nat.ltb_spec ch 3).
    + destruct (Z.of_nat i <? fst (cut_point s))%Z; auto.
    + replace ch with 3 by lia. apply Hc, Hi.
Qed.

Lemma n_points_co_bounded a b c s :
  bounded a -> bounded b ->
  (forall i, i < N -> in_unit (color c i 3)) ->
  bounded (fst (n_points_co a b c s)).
Proof.
  intros [Pa Ca] [Pb Cb] Hc.
  destruct (n_points_co_cells a b c s) as (Hv & Hcol & Ha & _).
  split.
  - intros i j k Hi Hj Hk.
    destruct (Hv i j Hi Hj) as [H|H]; rewrite H by exact Hk; auto.
  - intros i ch Hi Hch. destruct (Nat.lt_ge_cases ch 3) as [H3|H3].
    + destruct (Hcol i Hi) as [H|H]; rewrite H by exact H3; auto.
    + replace ch with 3 by lia. rewrite Ha. apply Hc, Hi.
Qed.

(** X7. A crossover of two parents whose coordinates and channels are in
    [0,1], into a slot whose alpha is in [0,1], gives a child whose
    coordinates and channels are in [0,1]: the child's only own
    contribution is alpha. *)
Theorem crossover_bounded (a b c : Chromosome) (s : seed_t) :
  bounded a -> bounded b ->
  (forall i, i < N -> in_unit (color c i 3)) ->
  bounded (fst (one_point_co a b c s)) /\ bounded (fst (n_points_co a b c s)).
Proof.
  intros Ha Hb Hc. split.
  - apply one_point_co_bounded; assumption.
  - apply n_points_co_bounded; assumption.
Qed.

(** ** Drawing and fitness *)

Lemma draw_loop_same c c' n :
  forall lo acc,
  lo + n <= N -> same_genes c c' ->
  for_pure n lo (fun i cmds => cmds ++ draw_triangle c i) acc =
  for_pure n lo (fun i cmds => cmds ++ draw_triangle c' i) acc.
Proof.
  induction n as [|n IH]; intros lo acc Hn Hs; [reflexivity|].
  cbn [for_pure].
  assert (E : draw_triangle c lo = draw_triangle c' lo).
  { destruct Hs as [Hp Hc]. unfold draw_triangle.
    rewrite !(Hp lo) by (unfold V; lia). rewrite !(Hc lo) by lia.
    reflexivity. }
  rewrite E. apply IH; [lia | exact Hs].
Qed.

Lemma draw_same_genes c c' : same_genes c c' -> draw c = draw c'.
Proof.
  intros Hs. unfold draw. f_equal. f_equal.
  apply draw_loop_same; [lia | exact Hs].
Qed.

Lemma draw_loop_length c n :
  forall lo acc,
  length (for_pure n lo (fun i cmds => cmds ++ draw_triangle c i) acc)
  = length acc + 4 * n.
Proof.
  induction n as [|n IH]; intros lo acc; cbn [for_pure]; [lia|].
  rewrite IH, length_app. cbn [length draw_triangle]. lia.
Qed.

(** X8. [draw] issues [glBegin], then for each of the [N] triangles one
    colour and three vertices, then [glEnd]; it reads nothing but the
    vertices and the RGBA colours of the [N] triangles, so the score of a
    chromosome depends on these alone, not on the cached fitness or the
    buffer. *)
Theorem fitness_depends_on_genes (gl : list gl_cmd -> list Z)
    (w h : Z) (pix : list Z) (c c' : Chromosome) :
  same_genes c c' ->
  draw c = draw c' /\
  length (draw c) = 4 * N + 2 /\
  fst (fitness (rendering gl) w h pix c) = fst (fitness (rendering gl) w h pix c').
Proof.
  intros Hs. pose proof (draw_same_genes c c' Hs) as E.
  split; [exact E|]. split.
  - unfold draw. rewrite !length_app, draw_loop_length. cbn [length]. lia.
  - unfold fitness, rendering. cbn [fst window set_window]. rewrite E.
    reflexivity.
Qed.

(** X9. Self-pairing makes ties: the child of a genome crossed with itself
    into a slot with the same alpha is drawn by the same calls as the parent
    and has the parent's score. *)
Theorem self_pairing_same_score (gl : list gl_cmd -> list Z)
    (w h : Z) (pix : list Z) (a c : Chromosome) (s : seed_t) :
  (forall i, i < N -> color c i 3 = color a i 3) ->
  fst (fitness (rendering gl) w h pix (fst (one_point_co a a c s)))
  = fst (fitness (rendering gl) w h pix a) /\
  fst (fitness (rendering gl) w h pix (fst (n_points_co a a c s)))
  = fst (fitness (rendering gl) w h pix a).
Proof.
  intros Halpha.
  assert (H1 : same_genes (fst (one_point_co a a c s)) a).
  { destruct (one_point_co_frame a a c s) as (Ha & _). split.
    - intros i j k Hi Hj Hk.
      change (fst (one_point_co a a c s))
        with (one_point_copy (fst (cut_point s)) a a c).
      destruct (one_point_copy_triangle (fst (cut_point s)) a a c i Hi)
        as [Hp _].
      rewrite Hp by assumption.
      destruct (Z.of_nat i <? fst (cut_point s))%Z; reflexivity.
    - intros i ch Hi Hch. destruct (Nat.lt_ge_cases ch 3) as [H3|H3].
      + change (fst (one_point_co a a c s))
          with (one_point_copy (fst (cut_point s)) a a c).
        destruct (one_point_copy_triangle (fst (cut_point s)) a a c i Hi)
          as [_ Hc].
        rewrite Hc by assumption.
        destruct (Z.of_nat i <? fst (cut_point s))%Z; reflexivity.
      + replace ch with 3 by lia. rewrite Ha. apply Halpha, Hi. }
  assert (H2 : same_genes (fst (n_points_co a a c s)) a).
  { destruct (n_points_co_cells a a c s) as (Hv & Hc & Ha & _). split.
    - intros i j k Hi Hj Hk. destruct (Hv i j Hi Hj) as [H|H]; apply H, Hk.
    - intros i ch Hi Hch. destruct (Nat.lt_ge_cases ch 3) as [H3|H3].
      + destruct (Hc i Hi) as [H|H]; apply H, H3.
      + replace ch with 3 by lia. rewrite Ha. apply Halpha, Hi. }
  unfold fitness, rendering. cbn [fst window set_window].
  rewrite (draw_same_genes _ _ H1), (draw_same_genes _ _ H2).
  split; reflexivity.
Qed.

Lemma spec_score_le win pix :
  Forall is_byte win -> Forall is_byte pix ->
  (spec_score win pix <= 65025 * Z.of_nat (length win))%Z.
Proof.
  unfold spec_score. intros Hw. revert pix.
  induction Hw as [|a win Ha Hw IH]; intros pix Hp; [cbn; lia|].
  destruct Hp as [|b pix Hb Hp].
  - cbn [zip_with foldr length]. lia.
  - cbn [zip_with foldr length]. specialize (IH pix Hp).
    unfold is_byte in Ha, Hb.
    assert (H1 : (0 <= (255 - (a - b)) * (255 + (a - b)))%Z)
      by (apply Z.mul_nonneg_nonneg; lia).
    lia.
Qed.

(** X10. On byte buffers of the dimensions of the target the score is at
    most [3 * 255^2] per pixel; the [long long] accumulator is far from its
    limit. *)
Theorem fitness_upper_bound (render : Chromosome -> list Z)
    (input_width input_height : Z) (input_pixel : list Z) (c : Chromosome) :
  (0 <= input_width)%Z -> (0 <= input_height)%Z ->
  (input_width * input_height * 3 <= INT_MAX)%Z ->
  Z.of_nat (length (render c)) = (input_width * input_height * 3)%Z ->
  Z.of_nat (length input_pixel) = (input_width * input_height * 3)%Z ->
  Forall is_byte (render c) -> Forall is_byte input_pixel ->
  let score := fst (fitness render input_width input_height input_pixel c) in
  (score <= 195075 * (input_width * input_height))%Z /\
  (score < 2 ^ 48)%Z.
Proof.
  intros Hw Hh Hmax Lw Lp Bw Bp score.
  assert (Hwh : (0 <= input_width * input_height)%Z) by nia.
  assert (E : score = spec_score (render c) input_pixel).
  { subst score. unfold fitness. cbn [fst window set_window].
    unfold error_sum, int_mul, INT_MAX in *.
    rewrite (wrap32_small (input_width * input_height)) by lia.
    rewrite wrap32_small by lia.
    replace ((input_width * input_height * 3 + 2) / 3)%Z
      with (input_width * input_height)%Z
      by (apply Z.div_unique with (r := 2%Z); lia).
    rewrite error_loop_sum; try assumption; try lia. }
  pose proof (spec_score_le _ _ Bw Bp) as Hle. rewrite Lw in Hle.
  rewrite E. unfold INT_MAX in Hmax.
  change (2 ^ 48)%Z with 281474976710656%Z. lia.
Qed.

(** ** The initial population *)

Lemma gen_triangle_advanced j c s :
  advanced (2 * V + 3) s (snd (gen_triangle j c s)).
Proof. split; [reflexivity | cbn; lia]. Qed.

Lemma gen_triangle_meta j c s :
  fit_val (fst (gen_triangle j c s)) = fit_val c /\
  window (fst (gen_triangle j c s)) = window c.
Proof. split; reflexivity. Qed.

(** [gen_triangle] draws all six coordinates and the three RGB channels of
    triangle [j], sets its alpha and leaves the other triangles alone. *)
Lemma gen_triangle_cells j c s :
  ok s ->
  (forall k i, k < V -> i < 2 -> in_unit (point (fst (gen_triangle j c s)) j k i)) /\
  (forall ch, ch < 4 -> in_unit (color (fst (gen_triangle j c s)) j ch)) /\
  (forall j' k i, j' <> j ->
     point (fst (gen_triangle j c s)) j' k i = point c j' k i) /\
  (forall j' ch, j' <> j ->
     color (fst (gen_triangle j c s)) j' ch = color c j' ch).
Proof.
  intros Hok.
  split; [|split; [|split]].
  - intros k i Hk Hi.
    destruct k as [|[|[|k]]]; [| | |unfold V in Hk; lia];
      (destruct i as [|[|i]]; [| |lia]);
      cbn; rewrite ?Nat.eqb_refl; cbn;
      apply (quotient_unit _ (Hok _)).
  - intros ch Hch.
    destruct ch as [|[|[|[|ch]]]]; [| | | |lia];
      cbn; rewrite ?Nat.eqb_refl; cbn;
      first [ apply (quotient_unit _ (Hok _)) | (unfold Qle; cbn; lia) ].
  - intros j' k i Hne. cbn.
    destruct (Nat.eqb_spec j' j); [contradiction|]. reflexivity.
  - intros j' ch Hne. cbn.
    destruct (Nat.eqb_spec j' j); [contradiction|]. reflexivity.
Qed.

(** Running a command and returning a function of its result. *)
Lemma bind_ret_fst {A B} (m : Rand A) (f : A -> B) (s : seed_t) :
  fst ((let* x := m in ret (f x)) s) = f (fst (m s)).
Proof. reflexivity. Qed.

Lemma bind_ret_snd {A B} (m : Rand A) (f : A -> B) (s : seed_t) :
  snd ((let* x := m in ret (f x)) s) = snd (m s).
Proof. reflexivity. Qed.

(** The loop over the triangles of one member. *)
Lemma gen_member_spec c s :
  ok s ->
  bounded (fst (for_loop N 0 gen_triangle c s)) /\
  fit_val (fst (for_loop N 0 gen_triangle c s)) = fit_val c /\
  window (fst (for_loop N 0 gen_triangle c s)) = window c /\
  ok (snd (for_loop N 0 gen_triangle c s)) /\
  advanced ((2 * V + 3) * N) s (snd (for_loop N 0 gen_triangle c s)).
Proof.
  intros Hok.
  set (Inv := fun n (x : Chromosome) (s' : seed_t) =>
    (forall j k i, j < n -> k < V -> i < 2 -> in_unit (point x j k i)) /\
    (forall j ch, j < n -> ch < 4 -> in_unit (color x j ch)) /\
    fit_val x = fit_val c /\ window x = window c /\
    ok s' /\ advanced ((2 * V + 3) * n) s s').
  assert (H : hoare (Inv 0 c) (for_loop N 0 gen_triangle c) (Inv (0 + N))).
  { apply (hoare_for Inv). intros j x _ s' (Hp & Hc & Hf & Hw & Hok' & Hadv).
    destruct (gen_triangle_cells j x s' Hok') as (Tp & Tc & Op & Oc).
    destruct (gen_triangle_meta j x s') as [Mf Mw].
    pose proof (gen_triangle_advanced j x s') as Ta.
    unfold Inv. split; [|split; [|split; [|split; [|split]]]].
    - intros j' k i Hj' Hk Hi. destruct (Nat.eq_dec j' j) as [->|Hne].
      + apply Tp; assumption.
      + rewrite Op by exact Hne. apply Hp; [lia | assumption..].
    - intros j' ch Hj' Hch. destruct (Nat.eq_dec j' j) as [->|Hne].
      + apply Tc; assumption.
      + rewrite Oc by exact Hne. apply Hc; [lia | assumption].
    - congruence.
    - congruence.
    - eapply ok_extends; [exact Hok' | eapply advanced_extends, Ta].
    - replace ((2 * V + 3) * S j) with ((2 * V + 3) * j + (2 * V + 3))
        by (unfold V; lia).
      eapply advanced_trans; eassumption. }
  specialize (H s). destruct H as (Hp & Hc & Hf & Hw & Hok' & Hadv).
  { unfold Inv. split; [intros; lia|]. split; [intros; lia|].
    split; [reflexivity|]. split; [reflexivity|]. split; [exact Hok|].
    split; [reflexivity | unfold V; lia]. }
  split; [split; assumption|]. auto.
Qed.

Lemma gen_pop_spec pop s :
  ok s -> length pop = POP_SIZE ->
  length (fst (gen_pop pop s)) = POP_SIZE /\
  all_bounded (fst (gen_pop pop s)) /\
  (forall t, fit_val (fst (gen_pop pop s) !!! t) = fit_val (pop !!! t) /\
             window (fst (gen_pop pop s) !!! t) = window (pop !!! t)) /\
  ok (snd (gen_pop pop s)) /\
  advanced ((2 * V + 3) * N * POP_SIZE) s (snd (gen_pop pop s)).
Proof.
  intros Hok Hlen.
  set (Inv := fun n (x : list Chromosome) (s' : seed_t) =>
    length x = POP_SIZE /\
    (forall t, t < n -> bounded (x !!! t)) /\
    (forall t, fit_val (x !!! t) = fit_val (pop !!! t) /\
               window (x !!! t) = window (pop !!! t)) /\
    ok s' /\ advanced ((2 * V + 3) * N * n) s s').
  assert (H : hoare (Inv 0 pop) (gen_pop pop) (Inv (0 + POP_SIZE))).
  { unfold gen_pop. apply (hoare_for Inv).
    intros i x Hi s' (Hl & Hb & Hm & Hok' & Hadv).
    destruct (gen_member_spec (x !!! i) s' Hok') as (Gb & Gf & Gw & Gok & Ga).
    rewrite (bind_ret_fst _ (fun c => <[i:=c]> x)).
    rewrite (bind_ret_snd _ (fun c => <[i:=c]> x)). unfold Inv.
    split; [rewrite length_insert; exact Hl|].
    split; [|split; [|split]].
    - intros t Ht. destruct (Nat.eq_dec t i) as [->|Hne].
      + rewrite list_lookup_total_insert_eq by lia. exact Gb.
      + rewrite list_lookup_total_insert_ne by congruence. apply Hb. lia.
    - intros t. destruct (Nat.eq_dec t i) as [->|Hne].
      + rewrite list_lookup_total_insert_eq by lia.
        rewrite Gf, Gw. apply Hm.
      + rewrite list_lookup_total_insert_ne by congruence. apply Hm.
    - exact Gok.
    - replace ((2 * V + 3) * N * S i)
        with ((2 * V + 3) * N * i + (2 * V + 3) * N) by lia.
      eapply advanced_trans; eassumption. }
  specialize (H s). destruct H as (Hl & Hb & Hm & Hok' & Hadv).
  { unfold Inv. split; [exact Hlen|]. split; [intros; lia|].
    split; [intros; split; reflexivity|]. split; [exact Hok|].
    split; [reflexivity | lia]. }
  split; [exact Hl|]. split; [|auto].
  intros c Hc. apply list_elem_of_lookup_total_1 in Hc as (t & Ht & <-).
  apply Hb. lia.
Qed.

(** X11. From any array of [POP_SIZE] chromosomes and any stream of draws in
    [0, RAND_MAX], [gen_pop] makes a population of [POP_SIZE] members whose
    coordinates and channels all lie in [0,1]; it does not touch the cached
    fitness or the buffer of a slot, and it consumes [2 V + 3] draws for every
    triangle of every member. *)
Theorem gen_pop_bounded (pop : list Chromosome) (s : seed_t) :
  ok s -> length pop = POP_SIZE ->
  length (fst (gen_pop pop s)) = POP_SIZE /\
  all_bounded (fst (gen_pop pop s)) /\
  (forall t, fit_val (fst (gen_pop pop s) !!! t) = fit_val (pop !!! t) /\
             window (fst (gen_pop pop s) !!! t) = window (pop !!! t)) /\
  advanced ((2 * V + 3) * N * POP_SIZE) s (snd (gen_pop pop s)).
Proof.
  intros Hok Hlen.
  destruct (gen_pop_spec pop s Hok Hlen) as (H1 & H2 & H3 & _ & H4).
  split; [exact H1|]. split; [exact H2|]. split; [exact H3 | exact H4].
Qed.

(** ** Reset mutation, cell by cell *)

Lemma uval_unit s n : ok s -> in_unit (uval s n).
Proof. intros H. apply quotient_unit, H. Qed.

Lemma U_RND_uval s0 s : draws s = draws s0 -> fst (U_RND s) = uval s0 (pos s).
Proof. intros E. rewrite U_RND_value. unfold uval. rewrite E. reflexivity. Qed.

Lemma reset_of_later c s s1 s2 y :
  pos s1 <= pos s2 -> reset_of c s s1 y -> reset_of c s s2 y.
Proof.
  intros Hle [Hp Hc]. split.
  - intros i j k. destruct (Hp i j k) as [H|(n & H1 & H2 & H3 & H4)];
      [left; exact H | right].
    exists n. split; [exact H1|]. split; [lia|]. split; assumption.
  - intros i. destruct (Hc i) as [Ha [H|(n & H1 & H2 & H3)]].
    + split; [exact Ha | left; exact H].
    + split; [exact Ha | right]. exists n.
      split; [exact H1|]. split; [lia | exact H3].
Qed.

Lemma reset_point_reset_of c s i j k y s' :
  extends s s' /\ reset_of c s s' y ->
  extends s (snd (reset_point i j k y s')) /\
  reset_of c s (snd (reset_point i j k y s')) (fst (reset_point i j k y s')).
Proof.
  intros [[Ed Ep] Hr].
  pose proof (U_RND_uval s s' Ed) as Ecoin.
  pose proof (U_RND_uval s (snd (U_RND s')) Ed) as Eval.
  unfold reset_point, bind, ret. cbn [fst snd].
  destruct (gtb (fst (U_RND s')) (Num (1 # 2))) eqn:Hcoin; cbn [fst snd].
  - split; [split; [exact Ed | cbn; lia]|].
    destruct (reset_of_later c s s' (snd (U_RND (snd (U_RND s')))) y
                ltac:(cbn; lia) Hr) as [Hp Hc].
    split; [|exact Hc].
    intros i' j' k'. cbn [point set_point].
    destruct ((i' =? i) && (j' =? j) && (k' =? k)); [|apply Hp].
    right. exists (pos s'). split; [exact Ep|]. split; [cbn; lia|].
    split; [rewrite <- Ecoin; exact Hcoin | exact Eval].
  - split; [split; [exact Ed | cbn; lia]|].
    apply (reset_of_later c s s'); [cbn; lia | exact Hr].
Qed.

Lemma reset_color_reset_of c s i y s' :
  extends s s' /\ reset_of c s s' y ->
  extends s (snd (reset_color i y s')) /\
  reset_of c s (snd (reset_color i y s')) (fst (reset_color i y s')).
Proof.
  intros [[Ed Ep] Hr].
  pose proof (U_RND_uval s s' Ed) as Ecoin.
  pose proof (U_RND_uval s (snd (U_RND s')) Ed) as E0.
  pose proof (U_RND_uval s (snd (U_RND (snd (U_RND s')))) Ed) as E1.
  pose proof (U_RND_uval s (snd (U_RND (snd (U_RND (snd (U_RND s')))))) Ed)
    as E2.
  unfold reset_color, bind, ret. cbn [fst snd].
  destruct (gtb (fst (U_RND s')) (Num (1 # 2))) eqn:Hcoin; cbn [fst snd].
  - split; [split; [exact Ed | cbn; lia]|].
    destruct (reset_of_later c s s'
                (snd (U_RND (snd (U_RND (snd (U_RND (snd (U_RND s'))))))))
                y ltac:(cbn; lia) Hr) as [Hp Hc].
    split; [exact Hp|].
    intros i'. cbn [color set_color].
    destruct (Nat.eqb_spec i' i) as [->|Hne]; cbn [andb Nat.eqb];
      [|apply Hc].
    split; [apply Hc|]. right. exists (pos s').
    split; [exact Ep|]. split; [cbn; lia|].
    split; [rewrite <- Ecoin; exact Hcoin|].
    replace (pos s' + 1) with (S (pos s')) by lia.
    replace (pos s' + 2) with (S (S (pos s'))) by lia.
    replace (pos s' + 3) with (S (S (S (pos s')))) by lia.
    split; [exact E0|]. split; [exact E1 | exact E2].
  - split; [split; [exact Ed | cbn; lia]|].
    apply (reset_of_later c s s'); [cbn; lia | exact Hr].
Qed.

Lemma mutate_change_reset_of c s :
  reset_of c s (snd (mutate_change c s)) (fst (mutate_change c s)).
Proof.
  apply (mutate_change_inv (fun y s' => extends s s' /\ reset_of c s s' y) c s).
  - intros i j k y s' _ _ _. apply reset_point_reset_of.
  - intros i y s' _. apply reset_color_reset_of.
  - split; [apply extends_refl|]. split; [left; reflexivity|].
    intros i. split; [reflexivity | left; reflexivity].
Qed.

(** X15. Reset mutation changes a coordinate only to the draw that follows a
    coin above 1/2, and changes the RGB colour of a triangle only as a whole,
    to the three draws that follow one such coin; these draws are taken from
    the stream during the call and lie in [0,1].  Alpha is kept, and whatever
    is not redrawn stays as it was, in range or not. *)
Theorem mutate_change_cells (c : Chromosome) (s : seed_t) :
  ok s ->
  let c' := fst (mutate_change c s) in
  let s' := snd (mutate_change c s) in
  (forall i j k,
     point c' i j k = point c i j k \/
     exists n, pos s <= n /\ S n < pos s' /\
       gtb (uval s n) (Num (1 # 2)) = true /\
       point c' i j k = uval s (S n) /\ in_unit (point c' i j k)) /\
  (forall i,
     color c' i 3 = color c i 3 /\
     ((forall ch, ch < 3 -> color c' i ch = color c i ch) \/
      exists n, pos s <= n /\ n + 3 < pos s' /\
        gtb (uval s n) (Num (1 # 2)) = true /\
        forall ch, ch < 3 ->
          color c' i ch = uval s (n + 1 + ch) /\ in_unit (color c' i ch))).
Proof.
  intros Hok c' s'. destruct (mutate_change_reset_of c s) as [Hp Hc].
  fold c' s' in Hp, Hc. split.
  - intros i j k. destruct (Hp i j k) as [H|(n & H1 & H2 & H3 & H4)];
      [left; exact H | right].
    exists n. split; [exact H1|]. split; [exact H2|]. split; [exact H3|].
    split; [exact H4|]. rewrite H4. apply uval_unit, Hok.
  - intros i. destruct (Hc i) as [Ha [H|(n & H1 & H2 & H3 & E0 & E1 & E2)]].
    + split; [exact Ha | left; exact H].
    + split; [exact Ha | right]. exists n.
      split; [exact H1|]. split; [exact H2|]. split; [exact H3|].
      intros ch Hch. destruct ch as [|[|[|ch]]]; [| | |lia].
      * rewrite Nat.add_0_r. split; [exact E0|].
        rewrite E0. apply uval_unit, Hok.
      * replace (n + 1 + 1) with (n + 2) by lia. split; [exact E1|].
        rewrite E1. apply uval_unit, Hok.
      * replace (n + 1 + 2) with (n + 3) by lia. split; [exact E2|].
        rewrite E2. apply uval_unit, Hok.
Qed.

(** ** The population across generations *)

Lemma mutate_disturb_good d c s :
  d <> NaN -> bounded c -> ok s ->
  bounded (fst (mutate_disturb d c s)) /\ ok (snd (mutate_disturb d c s)).
Proof.
  intros Hd Hb Hok.
  apply (mutate_disturb_inv (fun y s' => bounded y /\ ok s') d N 0 c s).
  - intros j k y s' Hj Hk. apply disturb_vertex_good; [exact Hd | lia | exact Hk].
  - intros j y s' Hj. apply disturb_color_good; [exact Hd | lia].
  - split; assumption.
Qed.

Lemma mutate_change_good c s :
  bounded c -> ok s ->
  bounded (fst (mutate_change c s)) /\ ok (snd (mutate_change c s)).
Proof.
  intros Hb Hok.
  apply (mutate_change_inv (fun y s' => bounded y /\ ok s') c s).
  - intros i j k y s' _ _ _. apply reset_point_good.
  - intros i y s' _. apply reset_color_good.
  - split; assumption.
Qed.

Lemma ok_pick s : ok s -> ok (snd (pick s)).
Proof. intros H n. apply H. Qed.

Lemma ok_intensity s : ok s -> ok (snd (intensity s)).
Proof. intros H n. apply H. Qed.

Lemma ok_one_point_co a b c s : ok s -> ok (snd (one_point_co a b c s)).
Proof. intros H n. apply H. Qed.

Lemma ok_n_points_co a b c s : ok s -> ok (snd (n_points_co a b c s)).
Proof.
  intros H. destruct (n_points_co_exact a b c s) as (_ & _ & Ha).
  eapply ok_extends; [exact H | eapply advanced_extends, Ha].
Qed.

Lemma bounded_alpha c i : bounded c -> i < N -> in_unit (color c i 3).
Proof. intros [_ Hc] Hi. apply Hc; [exact Hi | lia]. Qed.

Lemma all_bounded_lookup pop t :
  all_bounded pop -> t < length pop -> bounded (pop !!! t).
Proof. intros H Ht. apply H, list_elem_of_lookup_total_2, Ht. Qed.

Lemma all_bounded_insert pop i c :
  all_bounded pop -> bounded c -> all_bounded (<[i := c]> pop).
Proof.
  intros H Hc x Hx. apply list_elem_of_lookup in Hx as [t Ht].
  destruct (Nat.eq_dec t i) as [->|Hne].
  - apply list_lookup_insert_Some in Ht as [(_ & <- & _)|[Hne _]];
      [exact Hc | congruence].
  - rewrite list_lookup_insert_ne in Ht by congruence.
    eapply H, list_elem_of_lookup_2, Ht.
Qed.

Section Population.

Variable render : Chromosome -> list Z.
Variables input_width input_height : Z.
Variable input_pixel : list Z.
Variable std_sort : list Chromosome -> list Chromosome.

Local Abbreviation evaluate' :=
  (evaluate render input_width input_height input_pixel).
Local Abbreviation regenerate' :=
  (regenerate render input_width input_height input_pixel).
Local Abbreviation gl_idle' :=
  (gl_idle render input_width input_height input_pixel std_sort).
Local Abbreviation generations' :=
  (generations render input_width input_height input_pixel std_sort).
Local Abbreviation main_init' :=
  (main_init render input_width input_height input_pixel std_sort).
Local Abbreviation run' :=
  (run render input_width input_height input_pixel std_sort).

Lemma evaluate_bounded c : bounded c -> bounded (evaluate' c).
Proof. intros H. exact H. Qed.

(** The slot that [regenerate] stores is the evaluation of what an operator
    made of members of the population. *)
Lemma regenerate_good i pop s :
  ok s -> length pop = POP_SIZE -> all_bounded pop -> i < POP_SIZE ->
  all_bounded (fst (regenerate' i pop s)) /\ ok (snd (regenerate' i pop s)).
Proof.
  intros Hok Hlen Hb Hi.
  assert (Hstore : forall c s', bounded c /\ ok s' ->
    all_bounded (<[i := evaluate' (<[i := c]> pop !!! i)]> (<[i := c]> pop))
    /\ ok s').
  { intros c s' [Hc Hs']. split; [|exact Hs'].
    rewrite list_lookup_total_insert_eq by lia.
    apply all_bounded_insert; [|apply evaluate_bounded, Hc].
    apply all_bounded_insert; assumption. }
  assert (Hmem : forall t, t < POP_SIZE -> bounded (pop !!! t)).
  { intros t Ht. apply all_bounded_lookup; [exact Hb | lia]. }
  pose proof (ok_U_RND s Hok) as Hok1.
  unfold regenerate, bind, ret. cbn [fst snd].
  destruct (ltb (fst (U_RND s)) (Num (95 # 100))); cbn [fst snd].
  - pose proof (ok_pick _ Hok1) as Hok2.
    pose proof (ok_pick _ Hok2) as Hok3.
    pose proof (ok_U_RND _ Hok3) as Hok4.
    destruct (pick_spec _ Hok1) as [Ha _].
    destruct (pick_spec _ Hok2) as [Hb' _].
    destruct (ltb (fst (U_RND (snd (pick (snd (pick (snd (U_RND s))))))))
                 (Num (1 # 2))); apply Hstore; split.
    + apply one_point_co_bounded; auto.
      intros t Ht. apply bounded_alpha; auto.
    + apply ok_one_point_co, Hok4.
    + apply n_points_co_bounded; auto.
      intros t Ht. apply bounded_alpha; auto.
    + apply ok_n_points_co, Hok4.
  - pose proof (ok_U_RND _ Hok1) as Hok2.
    destruct (ltb (fst (U_RND (snd (U_RND s)))) (Num (95 # 100)));
      apply Hstore.
    + apply mutate_disturb_good; [| auto | apply ok_intensity, Hok2].
      rewrite intensity_value. discriminate.
    + apply mutate_change_good; auto.
Qed.

Lemma regenerate_length i pop s :
  length (fst (regenerate' i pop s)) = length pop.
Proof. apply regenerate_spec. Qed.

Hypothesis std_sort_contract : sorts std_sort.

Lemma std_sort_bounded pop : all_bounded pop -> all_bounded (std_sort pop).
Proof.
  intros H c Hc. apply H. apply (std_sort_elem _ std_sort_contract), Hc.
Qed.

Lemma gl_idle_good pop s :
  ok s -> length pop = POP_SIZE -> all_bounded pop ->
  length (fst (gl_idle' pop s)) = POP_SIZE /\
  all_bounded (fst (gl_idle' pop s)) /\ ok (snd (gl_idle' pop s)).
Proof.
  intros Hok Hlen Hb. unfold gl_idle.
  apply (hoare_for (fun (_ : nat) (x : list Chromosome) (s' : seed_t) =>
    length x = POP_SIZE /\ all_bounded x /\ ok s') regenerate'
    (POP_SIZE - first_regen) first_regen (std_sort pop)).
  - intros i x Hi s' (Hl & Hx & Hs').
    assert (Hi' : i < POP_SIZE).
    { rewrite first_regen_value in Hi. unfold POP_SIZE in *. lia. }
    destruct (regenerate_good i x s' Hs' Hl Hx Hi') as [H1 H2].
    split; [rewrite regenerate_length; exact Hl|]. split; assumption.
  - split; [rewrite (std_sort_length _ std_sort_contract); exact Hlen|].
    split; [apply std_sort_bounded, Hb | exact Hok].
Qed.

Lemma main_init_good s :
  ok s ->
  length (fst (main_init' s)) = POP_SIZE /\
  all_bounded (fst (main_init' s)) /\ ok (snd (main_init' s)).
Proof.
  intros Hok.
  destruct (gen_pop_spec (replicate POP_SIZE Chromosome_new) s Hok)
    as (Hl & Hb & _ & Hok' & _); [apply length_replicate|].
  unfold main_init.
  rewrite (bind_ret_fst _ (fun pop => std_sort (evaluate' <$> pop))).
  rewrite (bind_ret_snd _ (fun pop => std_sort (evaluate' <$> pop))).
  split; [|split; [|exact Hok']].
  - rewrite (std_sort_length _ std_sort_contract), length_fmap. exact Hl.
  - apply std_sort_bounded. intros c Hc.
    apply list_elem_of_fmap in Hc as (y & -> & Hy).
    apply evaluate_bounded, Hb, Hy.
Qed.

Lemma generations_good n pop s :
  ok s -> length pop = POP_SIZE -> all_bounded pop ->
  length (fst (generations' n pop s)) = POP_SIZE /\
  all_bounded (fst (generations' n pop s)) /\
  ok (snd (generations' n pop s)).
Proof.
  revert pop s. induction n as [|n IH]; intros pop s Hok Hlen Hb.
  - cbn. auto.
  - cbn [generations]. unfold bind.
    destruct (gl_idle_good pop s Hok Hlen Hb) as (H1 & H2 & H3).
    apply IH; assumption.
Qed.

(** X12. Every population the program ever holds, the first one and the one
    after any number of generations, has [POP_SIZE] members whose vertex
    coordinates and colour channels all lie in [0,1]. *)
Theorem population_invariant (n : nat) (s : seed_t) :
  ok s ->
  length (fst (run' n s)) = POP_SIZE /\ all_bounded (fst (run' n s)).
Proof.
  intros Hok. unfold run, bind.
  destruct (main_init_good s Hok) as (Hl & Hb & Hok').
  destruct (generations_good n _ _ Hok' Hl Hb) as (H1 & H2 & _).
  split; assumption.
Qed.

(** *** What is displayed *)

(** X13. The frame [gl_display] shows after a generation is the drawing of
    a member of the population before that generation whose cached score
    was the smallest: children made in the generation are not shown before
    the next sort, however good they are. *)
Theorem display_shows_previous_best (pop : list Chromosome) (s : seed_t) :
  length pop = POP_SIZE ->
  exists c, c ∈ pop /\ fit_val c = min_fit pop /\
    fst (gl_idle' pop s) !! 0 = Some c /\
    gl_display (fst (gl_idle' pop s)) = gl_display [c].
Proof.
  intros Hlen.
  destruct (gl_idle_spec render input_width input_height input_pixel
              std_sort pop s) as (_ & Hkeep & _).
  pose proof (std_sort_length _ std_sort_contract pop) as Hl.
  rewrite Hlen in Hl.
  assert (H0 : is_Some (std_sort pop !! 0)).
  { apply lookup_lt_is_Some_2. rewrite Hl. unfold POP_SIZE. lia. }
  destruct H0 as [c0 E0].
  assert (E : fst (gl_idle' pop s) !! 0 = Some c0).
  { rewrite (Hkeep 0); [exact E0|]. rewrite first_regen_value. lia. }
  assert (Hc0 : c0 ∈ pop).
  { apply (std_sort_elem _ std_sort_contract).
    eapply list_elem_of_lookup_2, E0. }
  exists c0. split; [exact Hc0|]. split; [|split; [exact E|]].
  - destruct (min_fit_attained pop) as (m & Hm & Em).
    { intros Hnil. rewrite Hnil in Hlen. discriminate Hlen. }
    pose proof (ascending_head_least _ _ m
                  (std_sort_ascending _ std_sort_contract pop) E0
                  (proj2 (std_sort_elem _ std_sort_contract pop m) Hm)).
    pose proof (min_fit_le _ _ Hc0). lia.
  - unfold gl_display. rewrite (list_lookup_total_correct _ _ _ E).
    reflexivity.
Qed.

End Population.

(** *** The sorting key of a regenerated slot *)

Section Rendering.

(** The frame buffer as a function of the commands issued since the last
    [glClear], in the state of the context during one call of [gl_idle]. *)
Variable gl : list gl_cmd -> list Z.
Variables input_width input_height : Z.
Variable input_pixel : list Z.
Variable std_sort : list Chromosome -> list Chromosome.

Local Abbreviation fitness' :=
  (fitness (rendering gl) input_width input_height input_pixel).
Local Abbreviation evaluate' :=
  (evaluate (rendering gl) input_width input_height input_pixel).
Local Abbreviation regenerate' :=
  (regenerate (rendering gl) input_width input_height input_pixel).
Local Abbreviation gl_idle' :=
  (gl_idle (rendering gl) input_width input_height input_pixel std_sort).

Lemma evaluate_fresh c :
  fit_val (evaluate' c) = fst (fitness' (evaluate' c)) /\
  window (evaluate' c) = gl (draw (evaluate' c)).
Proof.
  assert (E : draw (evaluate' c) = draw c).
  { apply draw_same_genes. split; intros; reflexivity. }
  unfold evaluate, fitness, rendering in *.
  cbn [fst snd fit_val window set_fit set_window] in *.
  rewrite E. split; reflexivity.
Qed.

Lemma regenerate_fresh lo i pop s :
  length pop = POP_SIZE -> i < POP_SIZE ->
  (forall t, lo <= t < i ->
     fit_val (pop !!! t) = fst (fitness' (pop !!! t)) /\
     window (pop !!! t) = gl (draw (pop !!! t))) ->
  forall t, lo <= t < S i ->
    fit_val (fst (regenerate' i pop s) !!! t)
    = fst (fitness' (fst (regenerate' i pop s) !!! t)) /\
    window (fst (regenerate' i pop s) !!! t)
    = gl (draw (fst (regenerate' i pop s) !!! t)).
Proof.
  intros Hlen Hi Hprev t Ht.
  destruct (regenerate_store (rendering gl) input_width input_height
              input_pixel i pop s) as (c & _ & ->).
  destruct (Nat.eq_dec t i) as [->|Hne].
  - rewrite (list_lookup_total_insert_eq _ i)
      by (rewrite length_insert; lia).
    apply evaluate_fresh.
  - rewrite !list_lookup_total_insert_ne by congruence.
    apply Hprev. lia.
Qed.

(** X14. After a generation the cached score of every regenerated slot is
    the score of the genes the slot now holds, and its buffer holds their
    rendering: [gl_idle] evaluates a slot after the last write to it, so the
    next sort compares true scores. *)
Theorem regenerated_slots_fresh (pop : list Chromosome) (s : seed_t) (i : nat) :
  length (std_sort pop) = POP_SIZE -> first_regen <= i < POP_SIZE ->
  let c := fst (gl_idle' pop s) !!! i in
  cached (rendering gl) input_width input_height input_pixel c /\
  window c = rendering gl c.
Proof.
  intros Hlen Hi. unfold cached, rendering.
  assert (H : hoare (fun _ => True)
    (for_loop (POP_SIZE - first_regen) first_regen regenerate' (std_sort pop))
    (fun x _ => forall t, first_regen <= t < first_regen + (POP_SIZE - first_regen) ->
       fit_val (x !!! t) = fst (fitness' (x !!! t)) /\
       window (x !!! t) = gl (draw (x !!! t)))).
  { intros s' _.
    apply (hoare_for (fun k (x : list Chromosome) (_ : seed_t) =>
      length x = POP_SIZE /\
      forall t, first_regen <= t < k ->
        fit_val (x !!! t) = fst (fitness' (x !!! t)) /\
        window (x !!! t) = gl (draw (x !!! t))) regenerate'
      (POP_SIZE - first_regen) first_regen (std_sort pop)).
    - intros k x Hk s'' [Hl Hx].
      assert (Hk' : k < POP_SIZE).
      { rewrite first_regen_value in Hk. unfold POP_SIZE in *. lia. }
      split.
      + destruct (regenerate_spec (rendering gl) input_width input_height
                    input_pixel k x s'') as (-> & _). exact Hl.
      + apply regenerate_fresh; assumption.
    - split; [exact Hlen | intros; lia]. }
  apply (H s I). rewrite first_regen_value in *. unfold POP_SIZE in *. lia.
Qed.

End Rendering.

(** ** Instances *)

Lemma macros_range_witness :
  ok zero_seed /\ in_unit (fst (U_RND zero_seed)).
Proof.
  split; [exact ok_zero_seed|].
  exact (proj1 (macros_range zero_seed ok_zero_seed)).
Defined.

Lemma pick_in_range_witness :
  ok zero_seed /\ fst (pick zero_seed) < POP_SIZE.
Proof.
  split; [exact ok_zero_seed|].
  exact (proj1 (pick_in_range zero_seed ok_zero_seed)).
Defined.

Lemma n_points_co_by_vertex_witness :
  0 < N /\
  forall ch, ch < 3 ->
    color (fst (n_points_co (flat (Num 0)) (flat (Num 1)) Chromosome_new
                  zero_seed)) 0 ch
    = color (donor (flat (Num 0)) (flat (Num 1)) zero_seed
               (pos zero_seed + (V * 0 + (V - 1)))) 0 ch.
Proof.
  assert (H : 0 < N) by (unfold N; lia).
  split; [exact H|].
  exact (proj2 (n_points_co_by_vertex (flat (Num 0)) (flat (Num 1))
                  Chromosome_new zero_seed 0 H)).
Defined.

Lemma crossover_overwrites_witness :
  0 < N /\
  same_triangle
    (fst (n_points_co (flat (Num 0)) (flat (Num 1)) Chromosome_new zero_seed))
    (fst (n_points_co (flat (Num 0)) (flat (Num 1)) (flat (Num 1)) zero_seed))
    0.
Proof.
  assert (H : 0 < N) by (unfold N; lia).
  split; [exact H|].
  exact (proj2 (crossover_overwrites (flat (Num 0)) (flat (Num 1))
                  Chromosome_new (flat (Num 1)) zero_seed 0 H)).
Defined.

Lemma crossover_bounded_witness :
  bounded (flat (Num 0)) /\ bounded (flat (Num 1)) /\
  bounded (fst (one_point_co (flat (Num 0)) (flat (Num 1)) (flat (Num 0))
                  zero_seed)).
Proof.
  assert (H0 : bounded (flat (Num 0)))
    by (apply bounded_flat; unfold Qle; cbn; lia).
  assert (H1 : bounded (flat (Num 1)))
    by (apply bounded_flat; unfold Qle; cbn; lia).
  split; [exact H0|]. split; [exact H1|].
  exact (proj1 (crossover_bounded (flat (Num 0)) (flat (Num 1))
                  (flat (Num 0)) zero_seed H0 H1
                  (fun i Hi => bounded_alpha _ i H0 Hi))).
Defined.

Lemma fitness_depends_on_genes_witness :
  same_genes (flat (Num 0)) (set_fit (flat (Num 0)) 5) /\
  draw (flat (Num 0)) = draw (set_fit (flat (Num 0)) 5).
Proof.
  assert (H : same_genes (flat (Num 0)) (set_fit (flat (Num 0)) 5))
    by (split; intros; reflexivity).
  split; [exact H|].
  exact (proj1 (fitness_depends_on_genes (fun _ => []) 0 0 []
                  (flat (Num 0)) (set_fit (flat (Num 0)) 5) H)).
Defined.

Lemma self_pairing_same_score_witness :
  fst (fitness (rendering (fun _ => [])) 0 0 []
         (fst (n_points_co (flat (Num 1)) (flat (Num 1)) (flat (Num 0))
                 zero_seed)))
  = fst (fitness (rendering (fun _ => [])) 0 0 [] (flat (Num 1))).
Proof.
  exact (proj2 (self_pairing_same_score (fun _ => []) 0 0 []
                  (flat (Num 1)) (flat (Num 0)) zero_seed
                  (fun i _ => eq_refl))).
Defined.

Lemma fitness_upper_bound_witness :
  (fst (fitness (fun _ => [0; 0; 0]%Z) 1 1 [255; 255; 255]%Z Chromosome_new)
   <= 195075 * (1 * 1))%Z.
Proof.
  assert (B1 : Forall is_byte [0; 0; 0]%Z)
    by (repeat constructor; unfold is_byte; lia).
  assert (B2 : Forall is_byte [255; 255; 255]%Z)
    by (repeat constructor; unfold is_byte; lia).
  exact (proj1 (fitness_upper_bound (fun _ => [0; 0; 0]%Z) 1 1
                  [255; 255; 255]%Z Chromosome_new
                  ltac:(lia) ltac:(lia) ltac:(unfold INT_MAX; lia)
                  eq_refl eq_refl B1 B2)).
Defined.

Lemma gen_pop_bounded_witness :
  ok zero_seed /\ length (replicate POP_SIZE Chromosome_new) = POP_SIZE /\
  all_bounded (fst (gen_pop (replicate POP_SIZE Chromosome_new) zero_seed)).
Proof.
  assert (H : length (replicate POP_SIZE Chromosome_new) = POP_SIZE)
    by reflexivity.
  split; [exact ok_zero_seed|]. split; [exact H|].
  exact (proj1 (proj2 (gen_pop_bounded (replicate POP_SIZE Chromosome_new)
                         zero_seed ok_zero_seed H))).
Defined.

Lemma mutate_change_cells_witness :
  ok zero_seed /\
  forall i,
    color (fst (mutate_change (flat (Num 2)) zero_seed)) i 3
    = color (flat (Num 2)) i 3.
Proof.
  split; [exact ok_zero_seed|].
  intros i.
  exact (proj1 (proj2 (mutate_change_cells (flat (Num 2)) zero_seed
                         ok_zero_seed) i)).
Defined.

Lemma population_invariant_witness :
  sorts tie_sort /\ ok zero_seed /\
  length (fst (run (fun _ => []) 0 0 [] tie_sort 2 zero_seed)) = POP_SIZE.
Proof.
  split; [exact tie_sort_sorts|]. split; [exact ok_zero_seed|].
  exact (proj1 (population_invariant (fun _ => []) 0 0 [] tie_sort
                  tie_sort_sorts 2 zero_seed ok_zero_seed)).
Defined.

Lemma display_shows_previous_best_witness :
  sorts tie_sort /\ length tied_pop = POP_SIZE /\
  exists c, c ∈ tied_pop /\ fit_val c = min_fit tied_pop /\
    fst (gl_idle (fun _ => []) 0 0 [] tie_sort tied_pop zero_seed) !! 0
    = Some c /\
    gl_display (fst (gl_idle (fun _ => []) 0 0 [] tie_sort tied_pop zero_seed))
    = gl_display [c].
Proof.
  split; [exact tie_sort_sorts|]. split; [reflexivity|].
  exact (display_shows_previous_best (fun _ => []) 0 0 [] tie_sort
           tie_sort_sorts tied_pop zero_seed eq_refl).
Defined.

Lemma regenerated_slots_fresh_witness :
  length (tie_sort tied_pop) = POP_SIZE /\ first_regen <= 7 < POP_SIZE /\
  cached (rendering (fun _ => [])) 0 0 []
    (fst (gl_idle (rendering (fun _ => [])) 0 0 [] tie_sort tied_pop
            zero_seed) !!! 7).
Proof.
  assert (Hl : length (tie_sort tied_pop) = POP_SIZE) by reflexivity.
  assert (Hi : first_regen <= 7 < POP_SIZE)
    by (rewrite first_regen_value; unfold POP_SIZE; lia).
  split; [exact Hl|]. split; [exact Hi|].
  exact (proj1 (regenerated_slots_fresh (fun _ => []) 0 0 [] tie_sort
                  tied_pop zero_seed 7 Hl Hi)).
Defined.
